(** * The skill installers of nextjs-architecture-skills

    A shallow embedding of the two installers of the repository,
    [bin/install.js] (the local-payload variant, run through npx) and
    [install.sh] (the remote-fetch variant, piped into bash), and the
    properties of their behaviour.

    Both are straight-line scripts over a file system, two output streams
    and an exit status.  The file system is a tree of named entries, kept
    in directory order; the scripts are written in a small monad that
    threads the file system and the output streams and stops at the first
    [process.exit], uncaught exception or (under [set -e]) failing command.

    Scope of the model.
    - Paths are POSIX paths.  [path.join] and [path.resolve] follow Node's
      posix implementation; the kernel's walk of a path is lexical
      ([..] steps back one component), so the walked directories are taken
      to be real directories, not links.
    - A symbolic link is a leaf of the tree.  How [fs.cpSync] and [cp -r]
      treat a link inside a copied tree is kept simple; the statements that
      depend on it say so by a [link_free] hypothesis.
    - [cp] is POSIX/GNU [cp]: copying a directory onto an existing
      directory puts the copy inside it, under the source's base name.
    - The directory [mktemp -d] hands out is fresh, so it is held apart
      from the tree the user sees.
    - Two things the scripts leave to where they run are parameters:
      how Node ends the process when [fs.cpSync] fails
      ([NodeJs.Runtime]: an exception, status 1, as documented; an
      abort, status 134, on some versions), and the order in which the
      shell sorts the words of a pattern ([Bash.Locale]: that of
      [LC_COLLATE]).  The statements hold for every runtime and every
      locale; the examples are run on a Node that raises and in the C
      locale. *)

From Stdlib Require Import String Ascii List Bool Arith ZArith Lia.
From Stdlib Require Import DecimalString Permutation.
Import ListNotations.

Local Open Scope list_scope.
Local Open Scope string_scope.

(** ** Strings *)

Module Str.

(** [s.split(sep)]: the pieces of [s] between the occurrences of [sep];
    never the empty list. *)
Fixpoint split (sep : ascii) (s : string) : list string :=
  match s with
  | EmptyString => [EmptyString]
  | String c r =>
      if Ascii.eqb c sep then EmptyString :: split sep r
      else match split sep r with
           | [] => [String c EmptyString]
           | h :: t => String c h :: t
           end
  end.

Definition starts_with (c : ascii) (s : string) : bool :=
  match s with
  | EmptyString => false
  | String d _ => Ascii.eqb d c
  end.

Fixpoint ends_with (c : ascii) (s : string) : bool :=
  match s with
  | EmptyString => false
  | String d EmptyString => Ascii.eqb d c
  | String _ r => ends_with c r
  end.

Definition newline : ascii := Ascii.ascii_of_nat 10.

(** What command substitution [$(...)] does to the output of the command:
    every trailing newline is dropped. *)
Fixpoint strip_newlines (s : string) : string :=
  match s with
  | EmptyString => EmptyString
  | String c r =>
      match strip_newlines r with
      | EmptyString => if Ascii.eqb c newline then EmptyString
                       else String c EmptyString
      | r' => String c r'
      end
  end.

(** Decimal rendering of an integer, as [${n}] and [$n] give it. *)
Definition of_Z (n : Z) : string := NilEmpty.string_of_int (Z.to_int n).

End Str.

(** ** Paths *)

Module Path.

Definition slash : ascii := "/"%char.

(** One round of the loop of Node's [normalizeString], on the segment [s];
    [res] is the result so far, last segment first.  Empty and [.]
    segments are dropped, [..] takes back the segment before it; above the
    start of a relative path [..] is kept ([allowAboveRoot]), above the
    root it is dropped. *)
Definition segment (allowAboveRoot : bool) (res : list string) (s : string)
  : list string :=
  if (s =? "") || (s =? ".") then res
  else if s =? ".." then
    match res with
    | top :: res' => if top =? ".." then s :: res else res'
    | [] => if allowAboveRoot then [s] else []
    end
  else s :: res.

Definition normalizeString (allowAboveRoot : bool) (segs : list string)
  : list string :=
  rev (fold_left (segment allowAboveRoot) segs []).

Definition isAbsolute (p : string) : bool := Str.starts_with slash p.

(** [path.normalize] (posix). *)
Definition normalize (p : string) : string :=
  if p =? "" then "."
  else
    let abs := isAbsolute p in
    let trailing := Str.ends_with slash p in
    let body :=
      String.concat "/" (normalizeString (negb abs) (Str.split slash p)) in
    if body =? "" then
      (if abs then "/" else if trailing then "./" else ".")
    else
      (if abs then "/" else "") ++ body ++ (if trailing then "/" else "").

(** The arguments of [path.join] that are not the empty string, glued
    with [/]; [None] when there is none. *)
Fixpoint joined (args : list string) : option string :=
  match args with
  | [] => None
  | a :: rest =>
      match joined rest with
      | None => if a =? "" then None else Some a
      | Some r => if a =? "" then Some r else Some (a ++ "/" ++ r)
      end
  end.

(** [path.join(...args)] (posix).  An argument is a string or
    [undefined]; [validateString] raises on the latter, which gives
    [None] here. *)
Fixpoint validate (args : list (option string)) : option (list string) :=
  match args with
  | [] => Some []
  | None :: _ => None
  | Some a :: rest =>
      match validate rest with
      | Some l => Some (a :: l)
      | None => None
      end
  end.

Definition join (args : list (option string)) : option string :=
  match validate args with
  | None => None
  | Some l =>
      match joined l with
      | None => Some "."
      | Some j => Some (normalize j)
      end
  end.

(** [path.resolve(...args)] (posix): the arguments are taken from the
    right until one is absolute, the working directory coming last. *)
Fixpoint resolved (args : list string) : bool * string :=
  match args with
  | [] => (false, "")
  | a :: rest =>
      let '(abs, p) := resolved rest in
      if abs then (abs, p)
      else if a =? "" then (false, p)
      else (isAbsolute a, a ++ "/" ++ p)
  end.

Definition resolve (cwd : string) (args : list string) : string :=
  let '(abs, p) := resolved (cwd :: args) in
  let body :=
    String.concat "/" (normalizeString (negb abs) (Str.split slash p)) in
  if abs then "/" ++ body
  else if body =? "" then "." else body.

(** Where the kernel finds the path [p] of a process whose working
    directory is [cwd]: the names of the directories from the root
    down. *)
Definition locate (cwd p : string) : list string :=
  normalizeString false
    (Str.split slash (if isAbsolute p then p else cwd ++ "/" ++ p)).

(** A name an entry of a directory can have: not empty, not [.] or [..],
    without a slash. *)
Fixpoint has_slash (s : string) : bool :=
  match s with
  | EmptyString => false
  | String c r => Ascii.eqb c slash || has_slash r
  end.

Definition special (s : string) : bool :=
  (s =? "") || (s =? ".") || (s =? "..").

Definition is_name (s : string) : bool :=
  negb (special s) && negb (has_slash s).

(** Segments by what [normalizeString] does with them: [plain] ones are
    kept as they are, [kept] ones are kept at least above the start of a
    relative path. *)
Definition plain (s : string) : Prop := special s = false.
Definition kept (s : string) : Prop := (s =? "") || (s =? ".") = false.
Definition noslash (s : string) : Prop := has_slash s = false.

Fixpoint is_prefix (p q : list string) : bool :=
  match p, q with
  | [], _ => true
  | a :: p', b :: q' => (a =? b) && is_prefix p' q'
  | _ :: _, [] => false
  end.

End Path.

(** ** The file system *)

Module Fs.

#[local] Unset Elimination Schemes.
Inductive node : Type :=
| File (content : string)
| Link (target : string)
| Dir (entries : list (string * node)).
#[local] Set Elimination Schemes.

Definition entries_t : Type := list (string * node).

Definition is_dir (n : node) : bool :=
  match n with Dir _ => true | _ => false end.

(** The entry called [name] of a directory. *)
Fixpoint find (name : string) (es : entries_t) : option node :=
  match es with
  | [] => None
  | (k, n) :: rest => if k =? name then Some n else find name rest
  end.

(** Sets the entry called [name]: in place when the directory has one,
    as a new last entry otherwise. *)
Fixpoint put (name : string) (n : node) (es : entries_t) : entries_t :=
  match es with
  | [] => [(name, n)]
  | (k, m) :: rest =>
      if k =? name then (k, n) :: rest else (k, m) :: put name n rest
  end.

(** The node at a location, links not followed. *)
Fixpoint lookup (p : list string) (n : node) : option node :=
  match p with
  | [] => Some n
  | c :: r =>
      match n with
      | Dir es =>
          match find c es with
          | Some m => lookup r m
          | None => None
          end
      | _ => None
      end
  end.

(** Puts [new] at a location whose parent is an existing directory. *)
Fixpoint write (p : list string) (new : node) (n : node) : option node :=
  match p with
  | [] => Some new
  | c :: r =>
      match n with
      | Dir es =>
          match r, find c es with
          | [], _ => Some (Dir (put c new es))
          | _, Some m =>
              match write r new m with
              | Some m' => Some (Dir (put c m' es))
              | None => None
              end
          | _, None => None
          end
      | _ => None
      end
  end.

(** [mkdir -p] and [fs.mkdirSync(p, { recursive: true })]: the missing
    directories of the path are made; a component that is there and is
    not a directory is an error. *)
Fixpoint mkdir_p (p : list string) (n : node) : option node :=
  match n with
  | Dir es =>
      match p with
      | [] => Some n
      | c :: r =>
          match mkdir_p r (match find c es with
                           | Some m => m
                           | None => Dir []
                           end) with
          | Some m' => Some (Dir (put c m' es))
          | None => None
          end
      end
  | _ => None
  end.

Definition parent (p : list string) : list string := removelast p.

(** No link anywhere in the tree. *)
Fixpoint link_free (n : node) : bool :=
  match n with
  | File _ => true
  | Link _ => false
  | Dir es =>
      (fix all (es : entries_t) : bool :=
         match es with
         | [] => true
         | (_, m) :: rest => link_free m && all rest
         end) es
  end.

Definition names (es : entries_t) : list string := map fst es.

(** The entries of every directory of the tree have names, each its own. *)
Fixpoint distinct (l : list string) : bool :=
  match l with
  | [] => true
  | s :: rest => negb (existsb (fun t => t =? s) rest) && distinct rest
  end.

Fixpoint wf (n : node) : bool :=
  match n with
  | Dir es =>
      distinct (map fst es) && forallb Path.is_name (map fst es) &&
      (fix all (es : entries_t) : bool :=
         match es with
         | [] => true
         | (_, m) :: rest => wf m && all rest
         end) es
  | _ => true
  end.

(** The names of the entries of a directory that are directories. *)
Definition dir_names (es : entries_t) : list string :=
  names (filter (fun e => is_dir (snd e)) es).

(** A run of writes into the directory at [T]: for each name of the list,
    in order, the entry of that name is set to a node that [R] relates to
    the name, the file system and the entries of the directory at that
    time. *)
Inductive puts (T : list string)
  (R : string -> node -> entries_t -> node -> Prop)
  : list string -> node -> node -> Prop :=
| puts_nil (d : node) : puts T R [] d d
| puts_cons (a : string) (rest : list string) (d d1 d' : node)
    (ts : entries_t) (x : node) :
    lookup T d = Some (Dir ts) ->
    R a d ts x ->
    write T (Dir (put a x ts)) d = Some d1 ->
    puts T R rest d1 d' ->
    puts T R (a :: rest) d d'.

(** Two locations neither of which is inside the other. *)
Definition apart (p q : list string) : Prop :=
  Path.is_prefix p q = false /\ Path.is_prefix q p = false.

End Fs.

(** ** The process: file system, output streams, exit status *)

Module Proc.

Record world : Type := World {
  disk : Fs.node;            (* the file system, from the root *)
  tmp : option Fs.node;      (* the directory of [mktemp -d], while it exists *)
  out : list string;         (* standard output, a line per element *)
  err : list string          (* standard error, a line per element *)
}.

Definition set_disk (d : Fs.node) (w : world) : world :=
  World d (tmp w) (out w) (err w).
Definition set_tmp (t : option Fs.node) (w : world) : world :=
  World (disk w) t (out w) (err w).
Definition add_out (l : string) (w : world) : world :=
  World (disk w) (tmp w) (out w ++ [l])%list (err w).
Definition add_err (l : string) (w : world) : world :=
  World (disk w) (tmp w) (out w) (err w ++ [l])%list.

(** The value of a variable of the environment, if it is set. *)
Fixpoint getenv (e : list (string * string)) (k : string) : option string :=
  match e with
  | [] => None
  | (k', v) :: rest => if k' =? k then Some v else getenv rest k
  end.

(** A step either goes on with a value or ends the process with an exit
    status. *)
Inductive res (A : Type) : Type :=
| Val (a : A)
| Halt (status : nat).
Arguments Val {A} a.
Arguments Halt {A} status.

Definition M (A : Type) : Type := world -> res A * world.

Definition ret {A} (a : A) : M A := fun w => (Val a, w).

Definition bind {A B} (m : M A) (k : A -> M B) : M B :=
  fun w =>
    match m w with
    | (Val a, w') => k a w'
    | (Halt c, w') => (Halt c, w')
    end.

Definition exit {A} (status : nat) : M A := fun w => (Halt status, w).

Definition get_disk : M Fs.node := fun w => (Val (disk w), w).
Definition put_disk (d : Fs.node) : M unit := fun w => (Val tt, set_disk d w).
Definition get_tmp : M (option Fs.node) := fun w => (Val (tmp w), w).
Definition put_tmp (t : option Fs.node) : M unit :=
  fun w => (Val tt, set_tmp t w).
Definition print (l : string) : M unit := fun w => (Val tt, add_out l w).
Definition eprint (l : string) : M unit := fun w => (Val tt, add_err l w).

Definition when (b : bool) (m : M unit) : M unit :=
  if b then m else ret tt.

(** A loop over a list that carries a value from one round to the next. *)
Fixpoint foldM {A B} (body : B -> A -> M B) (l : list A) (b : B) : M B :=
  match l with
  | [] => ret b
  | a :: rest => bind (body b a) (fun b' => foldM body rest b')
  end.

(** The exit status and the final state of a whole script. *)
Definition run (m : M unit) (w : world) : nat * world :=
  match m w with
  | (Val _, w') => (0, w')
  | (Halt c, w') => (c, w')
  end.

End Proc.

Declare Scope proc_scope.
Delimit Scope proc_scope with proc.
Notation "x <- m ;; k" := (Proc.bind m (fun x => k))
  (at level 100, m at next level, right associativity) : proc_scope.
Notation "m ;; k" := (Proc.bind m (fun _ => k))
  (at level 100, right associativity) : proc_scope.

Local Open Scope proc_scope.

(** ** The local-payload installer, [bin/install.js] *)

Module NodeJs.
Import Proc.

(** An exception nobody catches: Node prints it on standard error and the
    process ends with status 1. *)
Definition throw {A} (code : string) : M A :=
  eprint ("Uncaught " ++ code) ;; exit 1.

(** How the Node that runs the script ends the process when [fs.cpSync]
    fails.  Node documents an exception, which nobody catches here:
    status 1.  Some versions abort instead, with status 134, when the
    error is at an entry inside the directory that is copied.
    [cp_failure inside code] is the exit status, by whether the error is
    at an entry inside the copied directory ([inside]) or about the
    source and the destination themselves, and by the error. *)
Class Runtime : Type := {
  cp_failure : bool -> string -> nat;
  cp_failure_nonzero : forall inside code, cp_failure inside code <> 0
}.

(** [fs.cpSync] fails: the error is reported on standard error and the
    process ends as the runtime has it. *)
Definition crash {A} {rt : Runtime} (inside : bool) (code : string) : M A :=
  eprint ("Uncaught " ++ code) ;; exit (cp_failure inside code).

Definition console_log (l : string) : M unit := print l.
Definition console_error (l : string) : M unit := eprint l.
Definition process_exit {A} (status : nat) : M A := exit status.

(** [a || b] on values that are a string or [undefined]: [undefined] and
    the empty string are falsy. *)
Definition js_or (a b : option string) : option string :=
  match a with
  | Some s => if s =? "" then b else a
  | None => b
  end.

(** [l.includes(x)]. *)
Definition includes (l : list string) (x : string) : bool :=
  existsb (fun y => y =? x) l.

(** [n++] on a number: exact up to [2^53], where adding one rounds back. *)
Definition incr (n : Z) : Z :=
  if (n <? 2 ^ 53)%Z then (n + 1)%Z else n.

(** [path.join] on arguments that are all strings. *)
Definition path_join (args : list string) : string :=
  match Path.joined args with
  | None => "."
  | Some j => Path.normalize j
  end.

(** What [readdirSync(..., { withFileTypes: true })] tells about an entry:
    its name and the type of the entry itself (a link is a link, whatever
    it points to). *)
Inductive ftype : Type := IsFile | IsLink | IsDir.

Record Dirent : Type := mkDirent { name : string; type : ftype }.

Definition isDirectory (d : Dirent) : bool :=
  match type d with IsDir => true | _ => false end.

Definition type_of (n : Fs.node) : ftype :=
  match n with
  | Fs.File _ => IsFile
  | Fs.Link _ => IsLink
  | Fs.Dir _ => IsDir
  end.

Definition existsSync (cwd p : string) : M bool :=
  d <- get_disk ;;
  ret (match Fs.lookup (Path.locate cwd p) d with
       | Some _ => true
       | None => false
       end).

Definition readdirSync (cwd p : string) : M (list Dirent) :=
  d <- get_disk ;;
  match Fs.lookup (Path.locate cwd p) d with
  | Some (Fs.Dir es) => ret (map (fun e => mkDirent (fst e) (type_of (snd e))) es)
  | Some _ => throw "ENOTDIR"
  | None => throw "ENOENT"
  end.

(** [fs.mkdirSync(p, { recursive: true })]. *)
Definition mkdirSync (cwd p : string) : M unit :=
  d <- get_disk ;;
  match Fs.mkdir_p (Path.locate cwd p) d with
  | Some d' => put_disk d'
  | None => throw "EEXIST"
  end.

(** The loop of [copyDir]: the entries of the source directory go, one
    after the other and under their names, onto the entries [des] of the
    directory at the destination; the loop stops at the first error. *)
Definition copyDir
  (copy : Fs.node -> option Fs.node -> option Fs.node * option string)
  : Fs.entries_t -> Fs.entries_t -> Fs.entries_t * option string :=
  fix go (ses des : Fs.entries_t) : Fs.entries_t * option string :=
    match ses with
    | [] => (des, None)
    | (k, s) :: rest =>
        match copy s (Fs.find k des) with
        | (Some d', None) => go rest (Fs.put k d' des)
        | (Some d', Some e) => (Fs.put k d' des, Some e)
        | (None, e) => (des, e)
        end
    end.

(** What [fs.cpSync(src, dest, { recursive: true })] leaves at [dest]
    (second argument: what is there before, if anything), and the error
    it stops at, if any.  A directory is copied entry by entry INTO the
    directory at the destination, which keeps its other entries; a file
    replaces a file ([force] is on by default); a directory and something
    that is not one do not go onto each other.  A link is copied as a
    link, its target as it is written, and goes onto nothing but a
    link. *)
Fixpoint copy (src : Fs.node) (dest : option Fs.node)
  : option Fs.node * option string :=
  match src with
  | Fs.File c =>
      match dest with
      | Some (Fs.Dir _) => (dest, Some "ERR_FS_CP_NON_DIR_TO_DIR")
      | _ => (Some (Fs.File c), None)
      end
  | Fs.Link t =>
      match dest with
      | Some (Fs.Dir _) => (dest, Some "ERR_FS_CP_NON_DIR_TO_DIR")
      | Some (Fs.File _) => (dest, Some "EEXIST")
      | _ => (Some (Fs.Link t), None)
      end
  | Fs.Dir ses =>
      match dest with
      | Some (Fs.File _) | Some (Fs.Link _) =>
          (dest, Some "ERR_FS_CP_DIR_TO_NON_DIR")
      | _ =>
          let des := match dest with Some (Fs.Dir des) => des | _ => [] end in
          let '(des', e) := copyDir copy ses des in
          (Some (Fs.Dir des'), e)
      end
  end.

(** Whether [fs.cpSync] refuses the copy for what is at the destination
    itself: something that is not a directory where a directory is to go,
    or the other way round. *)
Definition refused (src : Fs.node) (dest : option Fs.node) : bool :=
  match src, dest with
  | Fs.Dir _, Some (Fs.File _) | Fs.Dir _, Some (Fs.Link _) => true
  | Fs.File _, Some (Fs.Dir _) => true
  | Fs.Link _, Some (Fs.Dir _) | Fs.Link _, Some (Fs.File _) => true
  | _, _ => false
  end.

Definition cpSync {rt : Runtime} (cwd src dest : string) : M unit :=
  d <- get_disk ;;
  let sp := Path.locate cwd src in
  let dp := Path.locate cwd dest in
  match Fs.lookup sp d with
  | None => crash false "ENOENT"
  | Some s =>
      let destStat := Fs.lookup dp d in
      if match destStat with
         | Some _ => Path.is_prefix sp dp && Path.is_prefix dp sp
         | None => false
         end
      then crash false "ERR_FS_CP_EINVAL"            (* src and dest are the same *)
      else if Fs.is_dir s && Path.is_prefix sp dp
      then crash false "ERR_FS_CP_EINVAL"            (* dest is inside src *)
      else
        (* checkParentDir *)
        (match Fs.lookup (Fs.parent dp) d with
         | Some _ => ret tt
         | None =>
             match Fs.mkdir_p (Fs.parent dp) d with
             | Some d' => put_disk d'
             | None => crash false "ENOTDIR"
             end
         end) ;;
        d1 <- get_disk ;;
        let '(new, e) := copy s destStat in
        (match new with
         | Some n =>
             match Fs.write dp n d1 with
             | Some d2 => put_disk d2
             | None => crash false "ENOTDIR"
             end
         | None => ret tt
         end) ;;
        match e with
        | Some code => crash (negb (refused s destStat)) code
        | None => ret tt
        end
  end.

(** *** The script *)

Record invocation : Type := Invocation {
  argv : list string;              (* process.argv *)
  env : list (string * string);    (* process.env *)
  cwd : string;                    (* process.cwd() *)
  __dirname : string               (* the directory of install.js *)
}.

Section Script.
Context {rt : Runtime}.
Variable inv : invocation.

Definition args : list string := skipn 2 (argv inv).
Definition isGlobal : bool := includes args "--global".

Definition home : option string :=
  js_or (getenv (env inv) "HOME") (getenv (env inv) "USERPROFILE").

(** [None]: [path.join] raises, its first argument being [undefined]. *)
Definition targetBase : option string :=
  if isGlobal
  then Path.join [home; Some ".claude"; Some "skills"]
  else Path.join [Some (cwd inv); Some ".claude"; Some "skills"].

Definition skillsSource : string :=
  Path.resolve (cwd inv) [__dirname inv; ".."; "skills"].

Definition skillDirs (dirents : list Dirent) : list string :=
  map name (filter isDirectory dirents).

(** The progress line of a skill, [`  \u2713 ${skill}`]. *)
Definition progress (skill : string) : string := "  ✓ " ++ skill.

(** The body of the [for (const skill of skillDirs)] loop. *)
Definition install_skill (targetBase : string) (installed : Z)
  (skill : string) : M Z :=
  let src := path_join [skillsSource; skill] in
  let dest := path_join [targetBase; skill] in
  cpSync (cwd inv) src dest ;;
  console_log (progress skill) ;;
  ret (incr installed).

(** The script from its first [console.log] on: the banner, the loop over
    the skills, the summary. *)
Definition install_all (targetBase : string) (skillDirs : list string)
  : M unit :=
  console_log "" ;;
  console_log (if isGlobal
               then "Installing Next.js Claude skills globally..."
               else "Installing Next.js Claude skills to project...") ;;
  console_log ("Target: " ++ targetBase) ;;
  console_log "" ;;
  installed <- foldM (install_skill targetBase) skillDirs 0%Z ;;
  console_log "" ;;
  console_log ("Done! " ++ Str.of_Z installed ++ " skills installed.") ;;
  console_log "" ;;
  console_log "Skills are auto-activated by Claude Code based on your prompts." ;;
  console_log "No additional configuration needed." ;;
  console_log "".

Definition install : M unit :=
  targetBase <- match targetBase with
                | Some t => ret t
                | None => throw "ERR_INVALID_ARG_TYPE"
                end ;;
  found <- existsSync (cwd inv) skillsSource ;;
  when (negb found)
    (console_error ("Error: skills/ directory not found at " ++ skillsSource) ;;
     process_exit 1) ;;
  dirents <- readdirSync (cwd inv) skillsSource ;;
  let skillDirs := skillDirs dirents in
  when (length skillDirs =? 0)%nat
    (console_error ("Error: No skill directories found in " ++ skillsSource) ;;
     process_exit 1) ;;
  mkdirSync (cwd inv) targetBase ;;
  install_all targetBase skillDirs.

End Script.

(** A run of the script on a file system: exit status and final state. *)
Definition main {rt : Runtime} (inv : invocation) (d : Fs.node)
  : nat * world :=
  run (install inv) (World d None [] []).

(** What a round of the loop sets the entry [a] of the destination root
    to: the copy of the entry [a] of the payload source [S] onto what the
    destination root has under that name. *)
Definition copied (S : list string) (a : string) (d : Fs.node)
  (ts : Fs.entries_t) (x : Fs.node) : Prop :=
  exists s, Fs.lookup (S ++ [a])%list d = Some s /\
            copy s (Fs.find a ts) = (Some x, None).

(** The lines of standard output of a run that installs [skills] to
    [targetBase]. *)
Definition report (global : bool) (targetBase : string)
  (skills : list string) : list string :=
  let banner :=
    [""; if global
         then "Installing Next.js Claude skills globally..."
         else "Installing Next.js Claude skills to project...";
     "Target: " ++ targetBase; ""] in
  let lines := map progress skills in
  let summary :=
    [""; "Done! " ++ Str.of_Z (Z.of_nat (length skills))
           ++ " skills installed."; "";
     "Skills are auto-activated by Claude Code based on your prompts.";
     "No additional configuration needed."; ""] in
  (banner ++ lines ++ summary)%list.

End NodeJs.

(** ** The remote-fetch installer, [install.sh] *)

Module Bash.
Import Proc.

(** A command that fails: its message goes to standard error and, under
    [set -e], the script ends with the command's status. *)
Definition fail {A} (msg : string) (status : nat) : M A :=
  eprint msg ;; exit status.

Definition echo (l : string) : M unit := print l.

(** [trap handler EXIT]: the handler runs when the script ends, however it
    ends; the exit status stays the one of the script. *)
Definition trap_EXIT (handler : M unit) (script : M unit) : M unit :=
  fun w =>
    let '(r, w1) := script w in
    let '(_, w2) := handler w1 in
    (r, w2).

(** [$((n + 1))]: shell arithmetic is on 64-bit signed integers. *)
Definition wrap64 (n : Z) : Z :=
  ((n + 2 ^ 63) mod 2 ^ 64 - 2 ^ 63)%Z.
Definition add1 (n : Z) : Z := wrap64 (n + 1).

(** [basename] of a location: its last name. *)
Definition basename (p : list string) : string := last p "".

(** The order in which the shell sorts the words a pattern expands to:
    that of the locale ([LC_COLLATE]).  The words of [*/] are the names
    of the directories, each with its final slash, after what they all
    begin with; [before s t] tells that the word of the directory called
    [s] does not come after the word of the one called [t]. *)
Class Locale : Type := {
  before : string -> string -> bool
}.

(** The C locale compares the words byte by byte.  The final slash
    counts: [a-b/] comes before [a/], the hyphen being below the
    slash. *)
Definition bytewise : Locale :=
  {| before := fun s t => String.leb (s ++ "/") (t ++ "/") |}.

(** Sorting of the names a pattern matches. *)
Fixpoint insert {lc : Locale} (s : string) (l : list string) : list string :=
  match l with
  | [] => [s]
  | t :: rest => if before s t then s :: l else t :: insert s rest
  end.

Fixpoint sort {lc : Locale} (l : list string) : list string :=
  match l with
  | [] => []
  | s :: rest => insert s (sort rest)
  end.

(** [stat], which follows a link; [follow] tells where a link leads. *)
Definition stat (follow : string -> option Fs.node) (n : Fs.node)
  : option Fs.node :=
  match n with
  | Fs.Link t => follow t
  | _ => Some n
  end.

Definition hidden (name : string) : bool := Str.starts_with "."%char name.

(** Whether the pattern [*/] matches an entry: its name does not begin
    with a dot and it is, or leads to, a directory. *)
Definition matches (follow : string -> option Fs.node)
  (e : string * Fs.node) : bool :=
  negb (hidden (fst e)) &&
  match stat follow (snd e) with
  | Some (Fs.Dir _) => true
  | _ => false
  end.

(** The names the pattern [*/] matches among the entries of the [skills]
    directory of the snapshot, in the order of the loop. *)
Definition matched {lc : Locale} (follow : string -> option Fs.node)
  (es : Fs.entries_t) : list string :=
  sort (Fs.names (filter (matches follow) es)).

(** The expansion of ["$TMPDIR/repo/skills"/*/], as locations under
    [$TMPDIR]: the matching entries in sorted order; the pattern itself,
    unexpanded, when nothing matches. *)
Definition glob {lc : Locale} (follow : string -> option Fs.node)
  (t : option Fs.node) : list (list string) :=
  let found :=
    match t with
    | Some n =>
        match Fs.lookup ["repo"; "skills"] n with
        | Some (Fs.Dir es) => matched follow es
        | _ => []
        end
    | None => []
    end in
  match found with
  | [] => [["repo"; "skills"; "*"]]
  | _ => map (fun name => ["repo"; "skills"; name]) found
  end.

(** The entries of a directory that [cp -r] copies go, under their names,
    onto the entries [des] of the directory at the destination; [cp] goes
    on after an entry it cannot copy. *)
Definition copyDir
  (copy : Fs.node -> option Fs.node -> option Fs.node * bool)
  : Fs.entries_t -> Fs.entries_t -> Fs.entries_t * bool :=
  fix go (ses des : Fs.entries_t) : Fs.entries_t * bool :=
    match ses with
    | [] => (des, true)
    | (k, s) :: rest =>
        let '(d', ok) := copy s (Fs.find k des) in
        let des' := match d' with
                    | Some n => Fs.put k n des
                    | None => des
                    end in
        let '(des'', ok') := go rest des' in
        (des'', ok && ok')
    end.

(** What [cp -r] leaves at a place (second argument: what is there
    before, if anything) and whether every entry could be copied. *)
Fixpoint copy (src : Fs.node) (dest : option Fs.node)
  : option Fs.node * bool :=
  match src with
  | Fs.File c =>
      match dest with
      | Some (Fs.Dir _) => (dest, false)
      | Some (Fs.Link _) => (dest, true)      (* written through the link *)
      | _ => (Some (Fs.File c), true)
      end
  | Fs.Link t =>
      match dest with
      | Some (Fs.Dir _) => (dest, false)
      | _ => (Some (Fs.Link t), true)
      end
  | Fs.Dir ses =>
      match dest with
      | Some (Fs.File _) | Some (Fs.Link _) => (dest, false)
      | _ =>
          let des := match dest with Some (Fs.Dir des) => des | _ => [] end in
          let '(des', ok) := copyDir copy ses des in
          (Some (Fs.Dir des'), ok)
      end
  end.

(** [cp -r "$src" "$dest"], for a source under [$TMPDIR] written with a
    final slash: the source has to be (or lead to) a directory.  When
    [dest] is an existing directory the copy goes inside it, under the
    base name of the source. *)
Definition cp_r (follow : string -> option Fs.node) (cwd : string)
  (src : list string) (dest : string) : M unit :=
  t <- get_tmp ;;
  d <- get_disk ;;
  match match t with
        | Some n =>
            match Fs.lookup src n with
            | Some m => stat follow m
            | None => None
            end
        | None => None
        end with
  | Some (Fs.Dir ses) =>
      let dp := Path.locate cwd dest in
      let dp' := match Fs.lookup dp d with
                 | Some (Fs.Dir _) => (dp ++ [basename src])%list
                 | _ => dp
                 end in
      let '(new, ok) := copy (Fs.Dir ses) (Fs.lookup dp' d) in
      (match new with
       | Some n =>
           match Fs.write dp' n d with
           | Some d' => put_disk d'
           | None => fail "cp: cannot create directory" 1
           end
       | None => ret tt
       end) ;;
      when (negb ok) (fail "cp: cannot overwrite" 1)
  | _ => fail "cp: cannot stat" 1
  end.

Definition mkdir_p (cwd p : string) : M unit :=
  d <- get_disk ;;
  match Fs.mkdir_p (Path.locate cwd p) d with
  | Some d' => put_disk d'
  | None => fail "mkdir: cannot create directory" 1
  end.

(** *** The script *)

Inductive fetched : Type :=
| Cloned (repo : Fs.node)        (* the work tree of the snapshot *)
| CloneFailed (msg : string).    (* what git says when it gives up *)

Record invocation : Type := Invocation {
  args : list string;                   (* "$@" *)
  env : list (string * string);         (* the environment *)
  pwd : string;                         (* the working directory *)
  mktemp : bool;                        (* whether mktemp -d succeeds *)
  git_clone : fetched;                  (* the outcome of the clone *)
  follow : string -> option Fs.node     (* where a link of the snapshot leads *)
}.

Section Script.
Context {lc : Locale}.
Variable inv : invocation.

Definition REPO : string :=
  "https://github.com/sharetech-labs/nextjs-architecture-skills.git".

(** [for arg in "$@"; do case "$arg" in --global) GLOBAL=true ;; esac; done] *)
Definition GLOBAL : bool :=
  fold_left (fun g arg => if arg =? "--global" then true else g)
    (args inv) false.

Definition HOME : option string := getenv (env inv) "HOME".

(** [None]: the expansion of [$HOME] stops the script, the variable being
    unset ([set -u]). *)
Definition TARGET : option string :=
  if GLOBAL
  then match HOME with
       | Some h => Some (h ++ "/.claude/skills")
       | None => None
       end
  else Some (Str.strip_newlines (pwd inv) ++ "/.claude/skills").

(** [TMPDIR="$(mktemp -d)"] *)
Definition TMPDIR : M unit :=
  if mktemp inv then put_tmp (Some (Fs.Dir []))
  else fail "mktemp: failed to create directory" 1.

(** [rm -rf "$TMPDIR"] *)
Definition rm_rf_TMPDIR : M unit := put_tmp None.

(** [git clone --depth 1 --quiet "$REPO" "$TMPDIR/repo"] *)
Definition clone : M unit :=
  match git_clone inv with
  | Cloned repo =>
      t <- get_tmp ;;
      match t with
      | Some (Fs.Dir es) => put_tmp (Some (Fs.Dir (Fs.put "repo" repo es)))
      | _ => fail "fatal: could not create work tree" 128
      end
  | CloneFailed msg => fail msg 128
  end.

(** The progress line of a skill, ["  + $skill_name"]. *)
Definition progress (skill_name : string) : string := "  + " ++ skill_name.

(** The body of the [for skill_dir in ...] loop. *)
Definition install_skill (TARGET : string) (INSTALLED : Z)
  (skill_dir : list string) : M Z :=
  let skill_name := Str.strip_newlines (basename skill_dir) in
  cp_r (follow inv) (pwd inv) skill_dir (TARGET ++ "/" ++ skill_name) ;;
  echo (progress skill_name) ;;
  ret (add1 INSTALLED).

(** The script after [mkdir -p]: the banner, the loop over the skill
    directories, the summary. *)
Definition install_all (TARGET : string) : M unit :=
  (if GLOBAL
   then echo ("Installing globally to " ++ TARGET)
   else echo ("Installing to project at " ++ TARGET)) ;;
  echo "" ;;
  t <- get_tmp ;;
  INSTALLED <- foldM (install_skill TARGET) (glob (follow inv) t) 0%Z ;;
  echo "" ;;
  echo ("Done! " ++ Str.of_Z INSTALLED ++ " skills installed.") ;;
  echo "" ;;
  echo "Skills are auto-activated by Claude Code based on your prompts." ;;
  echo "No additional configuration needed." ;;
  echo "".

(** The script from the line after the [trap] on. *)
Definition script (TARGET : string) : M unit :=
  echo "" ;;
  echo "Cloning Next.js Claude skills..." ;;
  clone ;;
  mkdir_p (pwd inv) TARGET ;;
  install_all TARGET.

Definition install : M unit :=
  TARGET <- match TARGET with
            | Some t => ret t
            | None => fail "HOME: unbound variable" 1
            end ;;
  TMPDIR ;;
  trap_EXIT rm_rf_TMPDIR (script TARGET).

End Script.

(** A run of the script on a file system: exit status and final state. *)
Definition main {lc : Locale} (inv : invocation) (d : Fs.node)
  : nat * world :=
  run (install inv) (World d None [] []).

(** What a round of the loop sets an entry of the destination root to: a
    directory. *)
Definition placed (a : string) (d : Fs.node) (ts : Fs.entries_t)
  (x : Fs.node) : Prop :=
  Fs.is_dir x = true.

(** The lines of standard output of a run that installs the skill
    directories called [names] to [TARGET]: those of the script after
    [mkdir -p], and all of them. *)
Definition report_install (global : bool) (TARGET : string)
  (names : list string) : list string :=
  let banner :=
    [if global
     then "Installing globally to " ++ TARGET
     else "Installing to project at " ++ TARGET;
     ""] in
  let lines := map (fun name => progress (Str.strip_newlines name)) names in
  let summary :=
    [""; "Done! " ++ Str.of_Z (Z.of_nat (length names))
           ++ " skills installed."; "";
     "Skills are auto-activated by Claude Code based on your prompts.";
     "No additional configuration needed."; ""] in
  (banner ++ lines ++ summary)%list.

Definition report (global : bool) (TARGET : string) (names : list string)
  : list string :=
  ""%string :: "Cloning Next.js Claude skills..."%string
  :: report_install global TARGET names.

End Bash.

(** ** The two variants side by side *)

Module Installer.
Import Proc.

Inductive variant : Type :=
| Local (inv : NodeJs.invocation)       (* bin/install.js *)
| Remote (inv : Bash.invocation).       (* install.sh *)

Section Variants.
Context {rt : NodeJs.Runtime} {lc : Bash.Locale}.

(** A run of a variant on a file system: exit status and final state. *)
Definition run (v : variant) (d : Fs.node) : nat * world :=
  match v with
  | Local i => NodeJs.main i d
  | Remote i => Bash.main i d
  end.

(** Whether the variant takes [--global] to be among its arguments. *)
Definition global (v : variant) : bool :=
  match v with
  | Local i => NodeJs.isGlobal i
  | Remote i => Bash.GLOBAL i
  end.

Definition home (v : variant) : option string :=
  match v with
  | Local i => NodeJs.home i
  | Remote i => Bash.HOME i
  end.

Definition cwd (v : variant) : string :=
  match v with
  | Local i => NodeJs.cwd i
  | Remote i => Bash.pwd i
  end.

(** The working directory as the script reads it: [process.cwd()],
    [$(pwd)]. *)
Definition working_directory (v : variant) : string :=
  match v with
  | Local i => NodeJs.cwd i
  | Remote i => Str.strip_newlines (Bash.pwd i)
  end.

(** The destination root, as the path the script computes; [None] when
    the computation stops the script. *)
Definition destination (v : variant) : option string :=
  match v with
  | Local i => NodeJs.targetBase i
  | Remote i => Bash.TARGET i
  end.

(** The subpath [.claude/skills] of [base], as the variant writes it. *)
Definition claude_skills (v : variant) (base : string) : string :=
  match v with
  | Local _ => NodeJs.path_join [base; ".claude"; "skills"]
  | Remote _ => base ++ "/.claude/skills"
  end.

(** Where the kernel finds the destination root [t]. *)
Definition root (v : variant) (t : string) : list string :=
  Path.locate (cwd v) t.

(** The entries of the payload source directory: of the [skills]
    directory next to [bin/], of the [skills] directory of the snapshot.
    [None] when there is no such directory. *)
Definition payload (v : variant) (d : Fs.node) : option Fs.entries_t :=
  match v with
  | Local i =>
      match Fs.lookup (Path.locate (NodeJs.cwd i) (NodeJs.skillsSource i)) d with
      | Some (Fs.Dir es) => Some es
      | _ => None
      end
  | Remote i =>
      match Bash.git_clone i with
      | Bash.Cloned repo =>
          match Fs.lookup ["skills"] repo with
          | Some (Fs.Dir es) => Some es
          | _ => None
          end
      | Bash.CloneFailed _ => None
      end
  end.

(** The payload source cannot be located, cannot be fetched. *)
Definition payload_missing (v : variant) (d : Fs.node) : Prop :=
  match v with
  | Local i =>
      Fs.lookup (Path.locate (NodeJs.cwd i) (NodeJs.skillsSource i)) d = None
  | Remote i => exists msg, Bash.git_clone i = Bash.CloneFailed msg
  end.

(** The skill directories a variant finds among the entries of the
    payload source, in the order it installs them: the entries that are
    directories; the entries the pattern [*/] matches. *)
Definition skills (v : variant) (es : Fs.entries_t) : list string :=
  match v with
  | Local _ => Fs.dir_names es
  | Remote i => Bash.matched (Bash.follow i) es
  end.

(** The lines of standard output of a run that installs [names] to [t]. *)
Definition report (v : variant) (t : string) (names : list string)
  : list string :=
  match v with
  | Local i => NodeJs.report (NodeJs.isGlobal i) t names
  | Remote i => Bash.report (Bash.GLOBAL i) t names
  end.

(** The summary line that reports [n] skills. *)
Definition summary (n : nat) : string :=
  "Done! " ++ Str.of_Z (Z.of_nat n) ++ " skills installed.".

(** How many skills a counter of the variant can count. *)
Definition countable (v : variant) (n : nat) : Prop :=
  match v with
  | Local _ => (Z.of_nat n <= 2 ^ 53)%Z
  | Remote _ => (Z.of_nat n < 2 ^ 63)%Z
  end.


(** What the statements on the copies assume of the payload source [es]
    and of the destination root [t].  Local variant: the entries of the
    payload are well formed and the payload source and the destination
    root are apart.  Remote variant: the names of the entries are file
    names, none ending in a newline (which [$(basename ...)] would
    drop). *)
Definition tidy (v : variant) (t : string) (es : Fs.entries_t) : Prop :=
  match v with
  | Local i =>
      Fs.wf (Fs.Dir es) = true /\
      Fs.apart (Path.locate (NodeJs.cwd i) (NodeJs.skillsSource i))
        (Path.locate (NodeJs.cwd i) t)
  | Remote i =>
      Forall (fun a => Path.is_name a = true /\ Str.strip_newlines a = a)
        (Fs.names es)
  end.


(** *** The claims that do not hold as they are stated *)

(** Destination selection, as stated: the destination root is
    [.claude/skills] under the home directory when [--global] is among
    the arguments, and under the working directory otherwise. *)
Definition selection_as_stated (v : variant) : Prop :=
  forall t base,
    destination v = Some t ->
    (if global v then home v else Some (cwd v)) = Some base ->
    root v t = (root v base ++ [".claude"; "skills"])%list.


(** Replacement, as stated: after a successful run a skill directory that
    was at the destination before is equal to its source. *)
Definition replacement_as_stated (v : variant) (d : Fs.node) : Prop :=
  forall w t es name ses old,
    run v d = (0, w) -> destination v = Some t -> payload v d = Some es ->
    Fs.find name es = Some (Fs.Dir ses) ->
    Fs.lookup (root v t ++ [name]) d = Some (Fs.Dir old) ->
    Fs.lookup (root v t ++ [name]) (disk w) = Some (Fs.Dir ses).

(** Idempotence, as stated: a second run leaves at the destination what
    the first one left there. *)
Definition idempotence_as_stated (v : variant) (d : Fs.node) : Prop :=
  forall t q,
    destination v = Some t ->
    Fs.lookup (root v t ++ q) (disk (snd (run v (disk (snd (run v d))))))
    = Fs.lookup (root v t ++ q) (disk (snd (run v d))).


(** The report, as stated: the summary line of a successful run counts
    the directories of the payload source. *)
Definition report_as_stated (v : variant) (d : Fs.node) : Prop :=
  forall w es,
    run v d = (0, w) -> payload v d = Some es ->
    In (summary (length (Fs.dir_names es))) (out w).

End Variants.

End Installer.

(** ** Example file systems and invocations *)

Module Examples.
Import Fs.

(** The examples are run on a Node that raises when a copy fails, and in
    the C locale. *)
#[export] Instance raising : NodeJs.Runtime :=
  {| NodeJs.cp_failure := fun _ _ => 1;
     NodeJs.cp_failure_nonzero := fun _ _ => Nat.neq_succ_0 0 |}.

#[export] Instance posix : Bash.Locale := Bash.bytewise.

(** A Node that aborts when a copy fails inside the directory it
    copies. *)
Definition aborting : NodeJs.Runtime :=
  {| NodeJs.cp_failure := fun inside _ => if inside then 134 else 1;
     NodeJs.cp_failure_nonzero :=
       ltac:(intros [] code; discriminate) |}.

(** The package as npx unpacks it: [bin/install.js] and two skills, with a
    file and a link next to them. *)
Definition shipped : entries_t :=
  [("alpha", Dir [("SKILL.md", File "alpha, as shipped")]);
   ("README.md", File "not a skill");
   ("latest", Link "alpha");
   ("beta", Dir [("SKILL.md", File "beta, as shipped")])].

Definition package : node :=
  Dir [("bin", Dir [("install.js", File "#!/usr/bin/env node")]);
       ("skills", Dir shipped)].

(** A project in the home directory of a user, nothing installed. *)
Definition fresh : node :=
  Dir [("pkg", package);
       ("home", Dir [("u", Dir [("proj", Dir [])])])].

(** The same with skills installed by hand before: one that the package
    does not have, and an older [alpha] with a file of its own. *)
Definition used : node :=
  Dir [("pkg", package);
       ("home",
        Dir [("u",
              Dir [("proj",
                    Dir [(".claude",
                          Dir [("skills",
                                Dir [("mine", Dir [("SKILL.md", File "my own")]);
                                     ("alpha",
                                      Dir [("SKILL.md", File "alpha, older");
                                           ("NOTES.md", File "stale")])])])])])])].

(** The package without its [skills] directory, and with one that holds
    no directory. *)
Definition broken : node :=
  Dir [("pkg", Dir [("bin", Dir [("install.js", File "#!/usr/bin/env node")])]);
       ("home", Dir [("u", Dir [("proj", Dir [])])])].

Definition hollow : node :=
  Dir [("pkg",
        Dir [("bin", Dir [("install.js", File "#!/usr/bin/env node")]);
             ("skills", Dir [("README.md", File "not a skill")])]);
       ("home", Dir [("u", Dir [("proj", Dir [])])])].

Definition npx : NodeJs.invocation :=
  NodeJs.Invocation ["node"; "/pkg/bin/install.js"]
    [("HOME", "/home/u")] "/home/u/proj" "/pkg/bin".

Definition npx_global : NodeJs.invocation :=
  NodeJs.Invocation ["node"; "/pkg/bin/install.js"; "--global"]
    [("HOME", "/home/u")] "/home/u/proj" "/pkg/bin".

Definition npx_global_homeless : NodeJs.invocation :=
  NodeJs.Invocation ["node"; "/pkg/bin/install.js"; "--global"]
    [("PATH", "/usr/bin")] "/home/u/proj" "/pkg/bin".

(** Snapshots of the repository: two skills; two skills, one of them in a
    directory whose name begins with a dot; a [skills] directory that
    holds a file and no skill. *)
Definition snapshot : node :=
  Dir [("README.md", File "readme");
       ("skills",
        Dir [("beta", Dir [("SKILL.md", File "beta, as shipped")]);
             ("alpha", Dir [("SKILL.md", File "alpha, as shipped")])])].

Definition drafted : entries_t :=
  [(".draft", Dir [("SKILL.md", File "draft")]);
   ("alpha", Dir [("SKILL.md", File "alpha, as shipped")])].

Definition snapshot_dot : node := Dir [("skills", Dir drafted)].



Definition dangling (target : string) : option node := None.

Definition curl (repo : node) : Bash.invocation :=
  Bash.Invocation [] [("HOME", "/home/u")] "/home/u/proj" true
    (Bash.Cloned repo) dangling.

(** The destination root of [npx] and of [curl]. *)
Definition project_skills : string := "/home/u/proj/.claude/skills".

Definition curl_offline : Bash.invocation :=
  Bash.Invocation ["--global"] [("HOME", "/home/u")] "/home/u/proj" true
    (Bash.CloneFailed "fatal: unable to access the repository") dangling.

End Examples.

(** ** What a run leaves alone, and what it leaves behind *)

Module Effects.
Import Proc.

(** [d'] is [d] but for what is at the location [p] or below it. *)
Definition only_at (p : list string) (d d' : Fs.node) : Prop :=
  forall q, Fs.apart p q -> Fs.lookup q d' = Fs.lookup q d.

(** The directory that the pattern [*/] finds under the name [name] in the
    snapshot [m] of [$TMPDIR]: the entry itself, or what it leads to. *)
Definition source (follow : string -> option Fs.node) (m : Fs.node)
  (name : string) : option Fs.node :=
  match Fs.lookup ["repo"; "skills"; name] m with
  | Some n => Bash.stat follow n
  | None => None
  end.

(** What a round of the loop of [install.sh] sets the entry [a] of the
    destination root to.  When a directory is there already, the copy of
    the source goes into it, as its entry [a]; otherwise the copy takes
    the place. *)
Definition landed (follow : string -> option Fs.node) (m : Fs.node)
  (a : string) (d : Fs.node) (ts : Fs.entries_t) (x : Fs.node) : Prop :=
  exists ses,
    source follow m a = Some (Fs.Dir ses) /\
    match Fs.find a ts with
    | Some (Fs.Dir inner) =>
        exists new,
          Bash.copy (Fs.Dir ses) (Fs.find a inner) = (Some new, true) /\
          x = Fs.Dir (Fs.put a new inner)
    | other => Bash.copy (Fs.Dir ses) other = (Some x, true)
    end.

(** No link on the way down to a location, nor at it. *)
Fixpoint direct (p : list string) (n : Fs.node) : bool :=
  match n, p with
  | Fs.Link _, _ => false
  | Fs.Dir es, c :: r =>
      match Fs.find c es with
      | Some m => direct r m
      | None => true
      end
  | _, _ => true
  end.

(** The banner of [install.js], the lines before the first progress
    line. *)
Definition banner (inv : NodeJs.invocation) (t : string) : list string :=
  [""; if NodeJs.isGlobal inv
       then "Installing Next.js Claude skills globally..."
       else "Installing Next.js Claude skills to project...";
   "Target: " ++ t; ""].

(** The lines of [install.sh] before the first progress line. *)
Definition sh_banner (inv : Bash.invocation) (t : string) : list string :=
  [""; "Cloning Next.js Claude skills...";
   if Bash.GLOBAL inv
   then "Installing globally to " ++ t
   else "Installing to project at " ++ t;
   ""].

End Effects.

(** ** More example file systems and invocations *)

Module MoreExamples.
Import Fs Examples.


Definition beta_in_the_way : node :=
  Dir [("pkg", package);
       ("home",
        Dir [("u",
              Dir [("proj",
                    Dir [(".claude",
                          Dir [("skills", Dir [("beta", File "a file")])])])])])].

(** A project directory whose name ends in a newline, and the two
    scripts run there. *)
Definition odd_project : string :=
  "/home/u/proj" ++ String Str.newline "".

Definition npx_odd : NodeJs.invocation :=
  NodeJs.Invocation ["node"; "/pkg/bin/install.js"]
    [("HOME", "/home/u")] odd_project "/pkg/bin".

Definition curl_odd : Bash.invocation :=
  Bash.Invocation [] [("HOME", "/home/u")] odd_project true
    (Bash.Cloned snapshot) dangling.

(** The package with the skills of [drafted], one of them in a directory
    whose name begins with a dot. *)
Definition fresh_drafted : node :=
  Dir [("pkg",
        Dir [("bin", Dir [("install.js", File "#!/usr/bin/env node")]);
             ("skills", Dir drafted)]);
       ("home", Dir [("u", Dir [("proj", Dir [])])])].

(** A package whose skill [beta] has a directory [refs], in a project
    where a file stands at [beta/refs]. *)
Definition shipped_deep : entries_t :=
  [("alpha", Dir [("SKILL.md", File "alpha, as shipped")]);
   ("beta", Dir [("SKILL.md", File "beta, as shipped");
                 ("refs", Dir [("api.md", File "reference")])])].

Definition refs_in_the_way : node :=
  Dir [("pkg",
        Dir [("bin", Dir [("install.js", File "#!/usr/bin/env node")]);
             ("skills", Dir shipped_deep)]);
       ("home",
        Dir [("u",
              Dir [("proj",
                    Dir [(".claude",
                          Dir [("skills",
                                Dir [("beta",
                                      Dir [("refs", File "a file")])])])])])])].

(** A snapshot with the skills [a] and [a-b], and a project where a file
    called [a] is in the way at the destination root. *)
Definition dashed : entries_t :=
  [("a", Dir [("SKILL.md", File "a, as shipped")]);
   ("a-b", Dir [("SKILL.md", File "a-b, as shipped")])].

Definition snapshot_dashed : node := Dir [("skills", Dir dashed)].

Definition a_in_the_way : node :=
  Dir [("home",
        Dir [("u",
              Dir [("proj",
                    Dir [(".claude",
                          Dir [("skills", Dir [("a", File "a file")])])])])])].

(** [npx] with arguments it does not know. *)
Definition npx_verbose : NodeJs.invocation :=
  NodeJs.Invocation ["node"; "/pkg/bin/install.js"; "--help"; "--gloabl"]
    [("HOME", "/home/u")] "/home/u/proj" "/pkg/bin".

Definition curl_verbose (repo : node) : Bash.invocation :=
  Bash.Invocation ["--help"; "-g"] [("HOME", "/home/u")] "/home/u/proj" true
    (Bash.Cloned repo) dangling.


(** The package without the link [latest], in a project with nothing
    installed. *)
Definition shipped_plain : entries_t :=
  [("alpha", Dir [("SKILL.md", File "alpha, as shipped")]);
   ("README.md", File "not a skill");
   ("beta", Dir [("SKILL.md", File "beta, as shipped")])].

Definition fresh_plain : node :=
  Dir [("pkg",
        Dir [("bin", Dir [("install.js", File "#!/usr/bin/env node")]);
             ("skills", Dir shipped_plain)]);
       ("home", Dir [("u", Dir [("proj", Dir [])])])].


End MoreExamples.

(** * Properties *)


(** ** Strings and paths *)

Section PathFacts.
Import Path.

Lemma split_nonempty (s : string) : Str.split slash s <> [].
Proof.
  destruct s as [|c r]; simpl; [discriminate|].
  destruct (Ascii.eqb c slash); [discriminate|].
  destruct (Str.split slash r); discriminate.
Qed.

Lemma split_app (a b : string) :
  Str.split slash (a ++ String slash b)
  = (Str.split slash a ++ Str.split slash b)%list.
Proof.
  induction a as [|c a IH]; simpl.
  - reflexivity.
  - destruct (Ascii.eqb c slash); [now rewrite IH|].
    rewrite IH. pose proof (split_nonempty a) as Hne.
    destruct (Str.split slash a); [contradiction|reflexivity].
Qed.

Lemma split_noslash (n : string) :
  has_slash n = false -> Str.split slash n = [n].
Proof.
  induction n as [|c n IH]; simpl; [reflexivity|].
  intros H. apply orb_false_iff in H as [Hc Hn].
  rewrite Hc, (IH Hn). reflexivity.
Qed.

Lemma split_has_slash (s : string) :
  Forall (fun x => has_slash x = false) (Str.split slash s).
Proof.
  induction s as [|c r IH]; simpl.
  - repeat constructor.
  - destruct (Ascii.eqb c slash) eqn:E.
    + constructor; [reflexivity|assumption].
    + destruct (Str.split slash r) as [|h t]; inversion IH; subst.
      * repeat constructor. simpl. now rewrite E.
      * constructor; [simpl; now rewrite E|assumption].
Qed.

Lemma is_name_special (n : string) : is_name n = true -> special n = false.
Proof.
  unfold is_name. intros H. apply andb_true_iff in H as [H _].
  now apply negb_true_iff in H.
Qed.

Lemma is_name_noslash (n : string) : is_name n = true -> has_slash n = false.
Proof.
  unfold is_name. intros H. apply andb_true_iff in H as [_ H].
  now apply negb_true_iff in H.
Qed.

Lemma segment_plain (b : bool) (res : list string) (s : string) :
  special s = false -> segment b res s = s :: res.
Proof.
  unfold special, segment. intros H.
  apply orb_false_iff in H as [H H2]. rewrite H, H2. reflexivity.
Qed.

Lemma segment_skip (b : bool) (res : list string) (s : string) :
  (s =? "") || (s =? ".") = true -> segment b res s = res.
Proof. unfold segment. now intros ->. Qed.

Lemma normalizeString_snoc (b : bool) (l : list string) (n : string) :
  special n = false ->
  normalizeString b (l ++ [n]) = (normalizeString b l ++ [n])%list.
Proof.
  intros H. unfold normalizeString.
  rewrite fold_left_app. simpl. now rewrite segment_plain.
Qed.

Lemma plain_kept (s : string) : plain s -> kept s.
Proof.
  unfold plain, kept, special. intros H.
  now apply orb_false_iff in H as [H _].
Qed.

Lemma kept_plain (s : string) : kept s -> (s =? "..") = false -> plain s.
Proof. unfold plain, kept, special. intros -> ->. reflexivity. Qed.

Lemma fold_segment_plain (b : bool) (l res : list string) :
  Forall plain l -> fold_left (segment b) l res = (rev l ++ res)%list.
Proof.
  intros H. revert res. induction H as [|s l Hs _ IH]; intros res; simpl.
  - reflexivity.
  - rewrite (segment_plain _ _ _ Hs), IH, <- app_assoc. reflexivity.
Qed.

Lemma segment_cases (b : bool) (res : list string) (s : string) :
  segment b res s = res \/ segment b res s = s :: res
  \/ segment b res s = tl res.
Proof.
  unfold segment.
  destruct ((s =? "") || (s =? ".")); [now left|].
  destruct (s =? ".."); [|now right; left].
  destruct res as [|top res']; [destruct b; [right; now left|now left]|].
  destruct (top =? ".."); [right; now left|right; now right].
Qed.

Lemma Forall_tl {A} (P : A -> Prop) (l : list A) : Forall P l -> Forall P (tl l).
Proof. intros H. destruct H; simpl; [constructor|assumption]. Qed.

Lemma segment_Forall (P : string -> Prop) (b : bool) (res : list string)
  (s : string) :
  Forall P res -> P s -> Forall P (segment b res s).
Proof.
  intros Hres Hs.
  destruct (segment_cases b res s) as [-> | [-> | ->]];
    [assumption|now constructor|now apply Forall_tl].
Qed.

Lemma fold_segment_Forall (P : string -> Prop) (b : bool)
  (l res : list string) :
  Forall P res -> Forall P l -> Forall P (fold_left (segment b) l res).
Proof.
  intros Hres Hl. revert res Hres.
  induction Hl as [|s l Hs _ IH]; intros res Hres; simpl; [assumption|].
  apply IH. now apply segment_Forall.
Qed.

Lemma segment_false_plain (res : list string) (s : string) :
  Forall plain res -> Forall plain (segment false res s).
Proof.
  intros Hres. unfold segment.
  destruct ((s =? "") || (s =? ".")) eqn:E1; [assumption|].
  destruct (s =? "..") eqn:E2.
  - destruct res as [|top res']; [constructor|].
    destruct (top =? "..") eqn:E3.
    + inversion Hres as [|? ? Htop _]; subst. unfold plain, special in Htop.
      rewrite E3 in Htop. now rewrite orb_true_r in Htop.
    + now inversion Hres.
  - constructor; [|assumption]. now apply kept_plain.
Qed.

Lemma fold_false_plain (l res : list string) :
  Forall plain res -> Forall plain (fold_left (segment false) l res).
Proof.
  revert res. induction l as [|s l IH]; intros res H; simpl; [assumption|].
  apply IH. now apply segment_false_plain.
Qed.

Lemma segment_kept (b : bool) (res : list string) (s : string) :
  Forall kept res -> Forall kept (segment b res s).
Proof.
  intros Hres. unfold segment.
  destruct ((s =? "") || (s =? ".")) eqn:E1; [assumption|].
  destruct (s =? "..") eqn:E2.
  - destruct res as [|top res'].
    + destruct b; repeat constructor. exact E1.
    + destruct (top =? ".."); [constructor; assumption|now inversion Hres].
  - now constructor.
Qed.

Lemma fold_kept (b : bool) (l res : list string) :
  Forall kept res -> Forall kept (fold_left (segment b) l res).
Proof.
  revert res. induction l as [|s l IH]; intros res H; simpl; [assumption|].
  apply IH. now apply segment_kept.
Qed.

(** Above the working directory the kernel resolves what [path.normalize]
    left of a relative path as it resolves the path itself. *)
Lemma relative_step (acc R : list string) (s : string) :
  Forall kept acc ->
  fold_left (segment false) (rev (segment true acc s)) R
  = segment false (fold_left (segment false) (rev acc) R) s.
Proof.
  intros Hacc. unfold segment at 2.
  destruct ((s =? "") || (s =? ".")) eqn:E1.
  - now rewrite segment_skip.
  - destruct (s =? "..") eqn:E2.
    + apply String.eqb_eq in E2. subst s.
      destruct acc as [|top acc']; [reflexivity|].
      destruct (top =? "..") eqn:E3.
      * change (rev (".." :: top :: acc')) with (rev (top :: acc') ++ [".."])%list.
        now rewrite fold_left_app.
      * simpl rev. rewrite fold_left_app. simpl fold_left.
        inversion Hacc as [|? ? Htop _]; subst.
        rewrite (segment_plain false _ top (kept_plain _ Htop E3)).
        unfold segment. simpl. now rewrite E3.
    + change (rev (s :: acc)) with (rev acc ++ [s])%list.
      now rewrite fold_left_app.
Qed.

Lemma relative_fold (l acc R : list string) :
  Forall kept acc ->
  fold_left (segment false) (rev (fold_left (segment true) l acc)) R
  = fold_left (segment false) (rev acc ++ l) R.
Proof.
  revert acc. induction l as [|s l IH]; intros acc Hacc; simpl.
  - now rewrite app_nil_r.
  - rewrite IH by now apply segment_kept.
    rewrite !fold_left_app. simpl. now rewrite relative_step.
Qed.

Lemma split_concat (l : list string) :
  l <> [] -> Forall noslash l ->
  Str.split slash (String.concat "/" l) = l.
Proof.
  intros Hne H. induction H as [|x l Hx Hl IH]; [contradiction|].
  destruct l as [|y r].
  - simpl. now apply split_noslash.
  - change (String.concat "/" (x :: y :: r))
      with (x ++ String slash (String.concat "/" (y :: r))).
    rewrite split_app, (split_noslash _ Hx), IH by discriminate. reflexivity.
Qed.

Lemma append_empty (a b : string) : a ++ b = "" -> a = "" /\ b = "".
Proof. destruct a; simpl; [auto|discriminate]. Qed.

Lemma concat_empty (l : list string) :
  Forall kept l -> String.concat "/" l = "" -> l = [].
Proof.
  intros H E. destruct H as [|x l Hx Hl]; [reflexivity|].
  destruct l as [|y r]; simpl in E.
  - subst x. discriminate Hx.
  - apply append_empty in E as [_ E]. discriminate E.
Qed.

Lemma string_app_assoc (a b c : string) : (a ++ b) ++ c = a ++ b ++ c.
Proof. induction a; simpl; congruence. Qed.

Lemma string_app_nil (s : string) : s ++ "" = s.
Proof. induction s; simpl; congruence. Qed.

Lemma isAbsolute_app (a b : string) :
  a <> "" -> isAbsolute (a ++ b) = isAbsolute a.
Proof. destruct a; [contradiction|reflexivity]. Qed.

Lemma locate_absolute (c p : string) :
  isAbsolute p = true -> locate c p = normalizeString false (Str.split slash p).
Proof. unfold locate. now intros ->. Qed.

Lemma locate_relative (c p : string) :
  isAbsolute p = false ->
  locate c p
  = rev (fold_left (segment false) (Str.split slash p)
           (fold_left (segment false) (Str.split slash c) [])).
Proof.
  unfold locate, normalizeString. intros ->.
  change (c ++ "/" ++ p) with (c ++ String slash p).
  now rewrite split_app, fold_left_app.
Qed.

Lemma split_trailing (body : string) (trailing : bool) :
  Str.split slash (body ++ (if trailing then "/" else ""))
  = (Str.split slash body ++ (if trailing then [""] else []))%list.
Proof.
  destruct trailing.
  - change "/" with (String slash ""). now rewrite split_app.
  - now rewrite string_app_nil, app_nil_r.
Qed.

Lemma fold_segment_trailing (b trailing : bool) (l R : list string) :
  fold_left (segment b) (l ++ (if trailing then [""] else [])) R
  = fold_left (segment b) l R.
Proof.
  rewrite fold_left_app. destruct trailing; reflexivity.
Qed.

Lemma concat_relative (l : list string) (t : string) :
  Forall kept l -> Forall noslash l -> l <> [] ->
  isAbsolute (String.concat "/" l ++ t) = false.
Proof.
  intros Hk Hn Hne. destruct l as [|x l]; [contradiction|].
  inversion Hk as [|? ? Hx _]; inversion Hn as [|? ? Hx' _]; subst.
  destruct x as [|ch x]; [discriminate Hx|].
  unfold noslash in Hx'. simpl in Hx'.
  apply orb_false_iff in Hx' as [Hc _].
  destruct l; simpl; exact Hc.
Qed.

(** The kernel finds the normalized form of a path where it finds the
    path. *)
Lemma locate_normalize (c p : string) :
  p <> "" -> locate c (normalize p) = locate c p.
Proof.
  intros Hp. unfold normalize.
  destruct (p =? "") eqn:E; [now apply String.eqb_eq in E|]. clear E.
  pose proof (split_has_slash p) as Hns.
  destruct (isAbsolute p) eqn:Habs; simpl negb.
  - rewrite (locate_absolute c p Habs).
    unfold normalizeString.
    set (acc := fold_left (segment false) (Str.split slash p) []).
    assert (Hplain : Forall plain (rev acc))
      by (apply Forall_rev, fold_false_plain; constructor).
    assert (Hno : Forall noslash (rev acc))
      by (apply Forall_rev, fold_segment_Forall; [constructor|exact Hns]).
    destruct (String.concat "/" (rev acc) =? "") eqn:Eb.
    + apply String.eqb_eq in Eb. apply concat_empty in Eb.
      * now rewrite Eb.
      * eapply Forall_impl; [apply plain_kept|exact Hplain].
    + assert (Hne : rev acc <> []).
      { intros Hnil. rewrite Hnil in Eb. discriminate Eb. }
      rewrite locate_absolute by reflexivity.
      change ("/" ++ String.concat "/" (rev acc)
                ++ (if Str.ends_with slash p then "/" else ""))
        with (String slash (String.concat "/" (rev acc)
                ++ (if Str.ends_with slash p then "/" else ""))).
      unfold normalizeString.
      change (Str.split slash (String slash ?x)) with ("" :: Str.split slash x).
      simpl Str.split. rewrite split_trailing, split_concat by assumption.
      simpl fold_left. rewrite segment_skip by reflexivity.
      rewrite fold_segment_trailing, fold_segment_plain by assumption.
      now rewrite app_nil_r, rev_involutive.
  - rewrite (locate_relative c p Habs).
    set (C := fold_left (segment false) (Str.split slash c) []).
    unfold normalizeString.
    set (acc := fold_left (segment true) (Str.split slash p) []).
    assert (Hkept : Forall kept (rev acc))
      by (apply Forall_rev, fold_kept; constructor).
    assert (Hno : Forall noslash (rev acc))
      by (apply Forall_rev, fold_segment_Forall; [constructor|exact Hns]).
    assert (Hrel : fold_left (segment false) (rev acc) C
                   = fold_left (segment false) (Str.split slash p) C).
    { unfold acc. rewrite relative_fold by constructor. reflexivity. }
    destruct (String.concat "/" (rev acc) =? "") eqn:Eb.
    + apply String.eqb_eq in Eb. apply concat_empty in Eb; [|assumption].
      rewrite Eb in Hrel. simpl in Hrel. rewrite <- Hrel.
      destruct (Str.ends_with slash p);
        (rewrite locate_relative by reflexivity); reflexivity.
    + assert (Hne : rev acc <> []).
      { intros Hnil. rewrite Hnil in Eb. discriminate Eb. }
      simpl append.
      rewrite locate_relative by now apply concat_relative.
      rewrite split_trailing, split_concat by assumption.
      rewrite fold_segment_trailing. fold C. now rewrite Hrel.
Qed.

Lemma locate_child (c t n : string) :
  t <> "" -> is_name n = true ->
  locate c (t ++ "/" ++ n) = (locate c t ++ [n])%list.
Proof.
  intros Ht Hn. unfold locate. rewrite isAbsolute_app by assumption.
  change (t ++ "/" ++ n) with (t ++ String slash n).
  destruct (isAbsolute t).
  - rewrite split_app, (split_noslash n) by now apply is_name_noslash.
    apply normalizeString_snoc. now apply is_name_special.
  - change (c ++ "/" ++ t) with (c ++ String slash t).
    change (c ++ "/" ++ t ++ String slash n)
      with (c ++ String slash (t ++ String slash n)).
    rewrite !split_app, (split_noslash n) by now apply is_name_noslash.
    rewrite app_assoc.
    apply normalizeString_snoc. now apply is_name_special.
Qed.

Lemma is_name_nonempty (n : string) : is_name n = true -> n <> "".
Proof. intros H ->. discriminate H. Qed.

Lemma append_nonempty (a b : string) : a <> "" -> a ++ b <> "".
Proof. destruct a; [contradiction|discriminate]. Qed.

Lemma path_join_child (t n : string) :
  t <> "" -> is_name n = true ->
  NodeJs.path_join [t; n] = normalize (t ++ "/" ++ n).
Proof.
  intros Ht Hn. unfold NodeJs.path_join. simpl.
  destruct (n =? "") eqn:En;
    [apply String.eqb_eq in En; now apply is_name_nonempty in Hn|].
  destruct (t =? "") eqn:Et; [now apply String.eqb_eq in Et|reflexivity].
Qed.

(** [path.join(t, n)] is the entry [n] of the directory [t]. *)
Lemma locate_path_join (c t n : string) :
  t <> "" -> is_name n = true ->
  locate c (NodeJs.path_join [t; n]) = (locate c t ++ [n])%list.
Proof.
  intros Ht Hn. rewrite path_join_child by assumption.
  rewrite locate_normalize by now apply append_nonempty.
  now apply locate_child.
Qed.

Lemma normalize_nonempty (p : string) : normalize p <> "".
Proof.
  unfold normalize. destruct (p =? ""); [discriminate|].
  destruct (String.concat "/" _ =? "") eqn:Eb.
  - destruct (isAbsolute p); [discriminate|].
    destruct (Str.ends_with slash p); discriminate.
  - apply String.eqb_neq in Eb.
    destruct (isAbsolute p); simpl; [discriminate|].
    now apply append_nonempty.
Qed.

Lemma path_join_nonempty (l : list string) : NodeJs.path_join l <> "".
Proof.
  unfold NodeJs.path_join. destruct (joined l); [|discriminate].
  apply normalize_nonempty.
Qed.

Lemma resolve_nonempty (c : string) (l : list string) : resolve c l <> "".
Proof.
  unfold resolve. destruct (resolved (c :: l)) as [abs p].
  destruct abs; [discriminate|].
  destruct (String.concat "/" _ =? "") eqn:Eb; [discriminate|].
  now apply String.eqb_neq in Eb.
Qed.

(** [path.join(base, ".claude", "skills")] is the directory [skills] of
    the directory [.claude] of [base]. *)
Lemma locate_claude_skills (c base : string) :
  base <> "" ->
  locate c (NodeJs.path_join [base; ".claude"; "skills"])
  = (locate c base ++ [".claude"; "skills"])%list.
Proof.
  intros Hb. unfold NodeJs.path_join. simpl.
  destruct (base =? "") eqn:E; [now apply String.eqb_eq in E|].
  rewrite locate_normalize by now apply append_nonempty.
  assert (H1 : base ++ "/.claude/skills"
               = (base ++ "/" ++ ".claude") ++ "/" ++ "skills")
    by (rewrite !string_app_assoc; reflexivity).
  rewrite H1, locate_child, locate_child; try reflexivity; try assumption.
  - now rewrite <- app_assoc.
  - now apply append_nonempty.
Qed.

End PathFacts.

(** ** The file system *)

Section FsFacts.
Import Fs.

Lemma find_put_same (k : string) (n : node) (es : entries_t) :
  find k (put k n es) = Some n.
Proof.
  induction es as [|[k' m] es IH]; simpl.
  - now rewrite String.eqb_refl.
  - destruct (k' =? k) eqn:E; simpl; now rewrite E.
Qed.

Lemma find_put_other (k k' : string) (n : node) (es : entries_t) :
  k <> k' -> find k' (put k n es) = find k' es.
Proof.
  intros Hne. induction es as [|[k0 m] es IH]; simpl.
  - destruct (k =? k') eqn:E; [now apply String.eqb_eq in E|reflexivity].
  - destruct (k0 =? k) eqn:E; simpl.
    + apply String.eqb_eq in E. subst k0.
      destruct (k =? k') eqn:E'; [now apply String.eqb_eq in E'|reflexivity].
    + now rewrite IH.
Qed.

Lemma put_find (k : string) (n : node) (es : entries_t) :
  find k es = Some n -> put k n es = es.
Proof.
  induction es as [|[k0 m] es IH]; simpl; [discriminate|].
  destruct (k0 =? k) eqn:E; [now intros [= ->]|].
  intros H. now rewrite IH.
Qed.

Lemma put_put (k : string) (n m : node) (es : entries_t) :
  put k n (put k m es) = put k n es.
Proof.
  induction es as [|[k0 x] es IH]; simpl.
  - now rewrite String.eqb_refl.
  - destruct (k0 =? k) eqn:E; simpl; rewrite E; [reflexivity|now rewrite IH].
Qed.

Lemma lookup_app (p q : list string) (d : node) :
  lookup (p ++ q) d
  = match lookup p d with Some m => lookup q m | None => None end.
Proof.
  revert d. induction p as [|c r IH]; intros d; simpl; [reflexivity|].
  destruct d as [| |es]; try reflexivity.
  destruct (find c es); [apply IH|reflexivity].
Qed.

Lemma lookup_child (p : list string) (a : string) (d : node)
  (ts : entries_t) :
  lookup p d = Some (Dir ts) -> lookup (p ++ [a]) d = find a ts.
Proof.
  intros H. rewrite lookup_app, H. simpl. now destruct (find a ts).
Qed.

Lemma write_cons (c : string) (r : list string) (x : node) (es : entries_t) :
  r <> [] ->
  write (c :: r) x (Dir es)
  = match find c es with
    | Some m =>
        match write r x m with
        | Some m' => Some (Dir (put c m' es))
        | None => None
        end
    | None => None
    end.
Proof. destruct r; [contradiction|reflexivity]. Qed.

Lemma lookup_write (p q : list string) (x d d' : node) :
  write p x d = Some d' -> lookup (p ++ q) d' = lookup q x.
Proof.
  revert d d'. induction p as [|c r IH]; intros d d' H.
  - simpl in H. now injection H as ->.
  - destruct d as [| |es]; try discriminate.
    destruct r as [|c' r'].
    + simpl in H. injection H as <-. simpl. now rewrite find_put_same.
    + rewrite write_cons in H by discriminate.
      destruct (find c es) as [m0|]; [|discriminate].
      destruct (write (c' :: r') x m0) as [m'|] eqn:Hw; [|discriminate].
      injection H as <-.
      change ((c :: c' :: r') ++ q)%list with (c :: ((c' :: r') ++ q))%list.
      cbn [lookup]. rewrite find_put_same. now apply (IH m0).
Qed.

Lemma write_child (p : list string) (a : string) (x d : node)
  (ts : entries_t) :
  lookup p d = Some (Dir ts) ->
  write (p ++ [a]) x d = write p (Dir (put a x ts)) d.
Proof.
  revert d. induction p as [|c r IH]; intros d H.
  - simpl in H. injection H as ->. reflexivity.
  - simpl in H. destruct d as [| |es]; try discriminate.
    destruct (find c es) as [m0|] eqn:Hf; [|discriminate].
    change ((c :: r) ++ [a])%list with (c :: (r ++ [a]))%list.
    rewrite write_cons by (destruct r; discriminate).
    rewrite Hf, (IH _ H).
    destruct r as [|c' r'].
    + simpl in H. injection H as ->. reflexivity.
    + rewrite write_cons by discriminate. now rewrite Hf.
Qed.

Lemma apart_sym (p q : list string) : apart p q -> apart q p.
Proof. unfold apart. tauto. Qed.

Lemma apart_cons (c : string) (p q : list string) :
  apart (c :: p) (c :: q) -> apart p q.
Proof.
  unfold apart. simpl. now rewrite String.eqb_refl.
Qed.

Lemma apart_app (p q r s : list string) :
  apart p q -> apart (p ++ r) (q ++ s).
Proof.
  revert q. induction p as [|a p IH]; intros q [H1 H2]; [discriminate H1|].
  destruct q as [|b q]; [discriminate H2|].
  simpl in *. unfold apart. simpl.
  destruct (a =? b) eqn:E.
  - apply String.eqb_eq in E. subst b. rewrite String.eqb_refl in *.
    simpl in *. now apply IH.
  - destruct (b =? a) eqn:E'; [|now split].
    apply String.eqb_eq in E'. subst b. now rewrite String.eqb_refl in E.
Qed.

Lemma lookup_write_apart (p q : list string) (x d d' : node) :
  apart p q -> write p x d = Some d' -> lookup q d' = lookup q d.
Proof.
  revert q d d'. induction p as [|c r IH]; intros q d d' Hap H.
  - destruct Hap as [Hap _]. discriminate Hap.
  - destruct q as [|c' r']; [destruct Hap as [_ Hap]; discriminate Hap|].
    destruct d as [| |es]; try discriminate.
    destruct (String.eqb_spec c c') as [<-|Hne].
    + apply apart_cons in Hap.
      destruct r as [|c2 r2]; [destruct Hap as [Hap _]; discriminate Hap|].
      rewrite write_cons in H by discriminate.
      destruct (find c es) as [m0|] eqn:Hf; [|discriminate].
      destruct (write (c2 :: r2) x m0) as [m'|] eqn:Hw; [|discriminate].
      injection H as <-. simpl. rewrite find_put_same, Hf.
      now apply (IH _ _ _ Hap Hw).
    + assert (Hd : exists n, d' = Dir (put c n es)).
      { destruct r as [|c2 r2].
        - simpl in H. injection H as <-. now eexists.
        - rewrite write_cons in H by discriminate.
          destruct (find c es); [|discriminate].
          destruct (write (c2 :: r2) x n); [|discriminate].
          injection H as <-. now eexists. }
      destruct Hd as [n ->]. simpl. now rewrite find_put_other.
Qed.

Lemma mkdir_p_existing (p : list string) (d : node) (xs : entries_t) :
  lookup p d = Some (Dir xs) -> mkdir_p p d = Some d.
Proof.
  revert d. induction p as [|c r IH]; intros d H; simpl in H.
  - injection H as ->. reflexivity.
  - destruct d as [| |es]; try discriminate. simpl.
    destruct (find c es) as [m|] eqn:Hf; [|discriminate].
    rewrite (IH _ H). now rewrite put_find.
Qed.

Lemma mkdir_p_dir (p : list string) (d d' : node) :
  mkdir_p p d = Some d' ->
  exists xs, lookup p d' = Some (Dir xs).
Proof.
  revert d d'. induction p as [|c r IH]; intros d d' H.
  - destruct d as [| |es]; try discriminate. injection H as <-. now eexists.
  - destruct d as [| |es]; try discriminate. simpl in H.
    destruct (mkdir_p r _) as [m'|] eqn:Hm; [|discriminate].
    injection H as <-. simpl. rewrite find_put_same. now apply (IH _ _ Hm).
Qed.

Lemma lookup_nil_dir (p : list string) :
  p <> [] -> lookup p (Dir []) = None.
Proof. destruct p; [contradiction|reflexivity]. Qed.

Lemma mkdir_p_inside (p q : list string) (d d' : node) :
  mkdir_p p d = Some d' -> q <> [] ->
  lookup (p ++ q) d' = lookup (p ++ q) d.
Proof.
  revert d d'. induction p as [|c r IH]; intros d d' H Hq.
  - destruct d as [| |es]; try discriminate. now injection H as <-.
  - destruct d as [| |es]; try discriminate. simpl in H.
    destruct (mkdir_p r _) as [m'|] eqn:Hm; [|discriminate].
    injection H as <-. simpl. rewrite find_put_same, (IH _ _ Hm Hq).
    destruct (find c es); [reflexivity|].
    apply lookup_nil_dir. destruct r; [assumption|discriminate].
Qed.

Lemma mkdir_p_apart (p q : list string) (d d' : node) :
  apart p q -> mkdir_p p d = Some d' -> lookup q d' = lookup q d.
Proof.
  revert q d d'. induction p as [|c r IH]; intros q d d' Hap H.
  - destruct Hap as [Hap _]. discriminate Hap.
  - destruct q as [|c' r']; [destruct Hap as [_ Hap]; discriminate Hap|].
    destruct d as [| |es]; try discriminate. simpl in H.
    destruct (mkdir_p r _) as [m'|] eqn:Hm; [|discriminate].
    injection H as <-. simpl.
    destruct (String.eqb_spec c c') as [<-|Hne].
    + apply apart_cons in Hap. rewrite find_put_same, (IH _ _ _ Hap Hm).
      destruct (find c es); [reflexivity|].
      apply lookup_nil_dir.
      destruct r'; [destruct Hap as [_ Hap]; discriminate Hap|discriminate].
    + now rewrite find_put_other.
Qed.

Lemma parent_snoc (p : list string) (a : string) : parent (p ++ [a]) = p.
Proof. unfold parent. apply removelast_last. Qed.

Section Puts.
Variable T : list string.
Variable R : string -> node -> entries_t -> node -> Prop.

Lemma puts_dir (l : list string) (d d' : node) :
  puts T R l d d' ->
  (exists ts, lookup T d = Some (Dir ts)) ->
  exists ts', lookup T d' = Some (Dir ts').
Proof.
  induction 1 as [d|a rest d d1 d' ts x HT HR Hw _ IH]; [auto|].
  intros _. apply IH. exists (put a x ts).
  rewrite <- (app_nil_r T). now rewrite (lookup_write _ _ _ _ _ Hw).
Qed.

(** The entries of other names stay as they are. *)
Lemma puts_other (l : list string) (d d' : node) :
  puts T R l d d' ->
  forall k q, ~ In k l ->
  lookup (T ++ k :: q) d' = lookup (T ++ k :: q) d.
Proof.
  induction 1 as [d|a rest d d1 d' ts x HT HR Hw _ IH]; [reflexivity|].
  intros k q Hk. rewrite IH by (intros Hin; apply Hk; now right).
  rewrite (lookup_write _ _ _ _ _ Hw), lookup_app, HT. simpl.
  now rewrite find_put_other by (intros ->; apply Hk; now left).
Qed.

(** What is apart from the directory stays as it is. *)
Lemma puts_apart (l : list string) (d d' : node) :
  puts T R l d d' ->
  forall q, apart T q -> lookup q d' = lookup q d.
Proof.
  induction 1 as [d|a rest d d1 d' ts x HT HR Hw _ IH]; [reflexivity|].
  intros q Hq. rewrite IH by assumption.
  eapply lookup_write_apart; eassumption.
Qed.

(** The entry [a] at the end of the run: a condition [Q'] that every
    write of the entry establishes, from [Q] or from [Q'] itself, holds
    of it once it was written.  [J] is what the writes may rely on about
    the rest of the file system. *)
Lemma puts_entry (J : node -> Prop) (Q Q' : option node -> Prop)
  (a : string) (l : list string) (d d' : node) :
  puts T R l d d' ->
  (forall d0 d1 b ts x,
      J d0 -> lookup T d0 = Some (Dir ts) ->
      write T (Dir (put b x ts)) d0 = Some d1 -> J d1) ->
  (forall d0 ts x,
      J d0 -> R a d0 ts x -> Q (find a ts) \/ Q' (find a ts) -> Q' (Some x)) ->
  J d ->
  (In a l /\ Q (lookup (T ++ [a]) d)) \/ Q' (lookup (T ++ [a]) d) ->
  Q' (lookup (T ++ [a]) d').
Proof.
  intros Hp HJ HQ. induction Hp as [d|b rest d d1 d' ts x HT HR Hw _ IH].
  - intros _ [[[] _]|H]. exact H.
  - intros Hd H. apply IH; [eapply HJ; eassumption|].
    rewrite (lookup_write _ _ _ _ _ Hw). simpl.
    rewrite (lookup_child _ _ _ _ HT) in H.
    destruct (String.eqb_spec b a) as [->|Hne].
    + right. rewrite find_put_same. apply (HQ d ts x Hd HR). tauto.
    + rewrite find_put_other by assumption.
      assert (E : match find a ts with Some m => Some m | None => None end
                  = find a ts) by now destruct (find a ts).
      rewrite E. destruct H as [[[Hba|Hin] H]|H]; [contradiction|now left; split|now right].
Qed.

End Puts.

End FsFacts.

(** ** The local-payload installer *)

Section JsFacts.
Import Proc Fs NodeJs.
Context {rt : NodeJs.Runtime}.

#[local] Hint Resolve cp_failure_nonzero Nat.neq_succ_0 : core.

Lemma bind_print {B} (l : string) (k : unit -> M B) (w : world) :
  bind (print l) k w = k tt (add_out l w).
Proof. reflexivity. Qed.

Lemma bind_cases {A B} (m : M A) (k : A -> M B) (w : world) :
  bind m k w
  = match m w with
    | (Val a, w') => k a w'
    | (Halt st, w') => (Halt st, w')
    end.
Proof. reflexivity. Qed.

Lemma skillDirs_dir_names (es : entries_t) :
  skillDirs (map (fun e => mkDirent (fst e) (type_of (snd e))) es)
  = dir_names es.
Proof.
  unfold skillDirs, dir_names, names.
  induction es as [|[k n] es IH]; simpl; [reflexivity|].
  destruct n; simpl; now rewrite ?IH.
Qed.

(** The script up to its first [console.log], case by case. *)
Lemma install_cases (inv : invocation) (w : world) :
  install inv w
  = match targetBase inv with
    | None => (Halt 1, add_err "Uncaught ERR_INVALID_ARG_TYPE" w)
    | Some t =>
        match lookup (Path.locate (cwd inv) (skillsSource inv)) (disk w) with
        | None =>
            (Halt 1,
             add_err ("Error: skills/ directory not found at "
                      ++ skillsSource inv) w)
        | Some (Dir es) =>
            match dir_names es with
            | [] =>
                (Halt 1,
                 add_err ("Error: No skill directories found in "
                          ++ skillsSource inv) w)
            | _ =>
                match mkdir_p (Path.locate (cwd inv) t) (disk w) with
                | Some d1 => install_all inv t (dir_names es) (set_disk d1 w)
                | None => (Halt 1, add_err "Uncaught EEXIST" w)
                end
            end
        | Some _ => (Halt 1, add_err "Uncaught ENOTDIR" w)
        end
    end.
Proof.
  unfold install. destruct (targetBase inv) as [t|]; [|reflexivity].
  unfold bind at 1. unfold ret at 1.
  unfold bind at 1. unfold existsSync, get_disk, bind at 1, ret at 1.
  destruct (lookup _ (disk w)) as [n|] eqn:Hs; simpl negb; cbn [when].
  - unfold bind at 1, ret at 1.
    unfold bind at 1. unfold readdirSync. unfold bind at 1. unfold get_disk.
    rewrite Hs. destruct n as [c|l|es]; try reflexivity.
    unfold ret at 1. rewrite skillDirs_dir_names.
    destruct (dir_names es) as [|k ks]; [reflexivity|].
    cbn [length Nat.eqb when]. unfold bind at 1, ret at 1.
    unfold bind at 1. unfold mkdirSync, bind at 1, get_disk.
    destruct (mkdir_p _ (disk w)); reflexivity.
  - reflexivity.
Qed.

Lemma copy_some (src : node) (dest : option node) :
  exists n e, copy src dest = (Some n, e).
Proof.
  destruct src as [c|t|ses]; simpl.
  - destruct dest as [[| |]|]; eauto.
  - destruct dest as [[| |]|]; eauto.
  - destruct dest as [[| |des]|]; eauto;
      destruct (copyDir copy ses _); eauto.
Qed.

(** What a call of [cpSync] does: it prints nothing; when it returns, the
    source was there and its copy is at the destination; when it fails,
    the process ends with a status that is not 0. *)
Lemma cpSync_cases (c src dest : string) (w w' : world) (r : res unit) :
  cpSync c src dest w = (r, w') ->
  out w' = out w /\ tmp w' = tmp w /\
  match r with
  | Halt st => st <> 0
  | Val _ =>
      err w' = err w /\
      exists s new,
        lookup (Path.locate c src) (disk w) = Some s /\
        copy s (lookup (Path.locate c dest) (disk w)) = (Some new, None) /\
        (lookup (parent (Path.locate c dest)) (disk w) <> None ->
         write (Path.locate c dest) new (disk w) = Some (disk w'))
  end.
Proof.
  unfold cpSync, bind at 1, get_disk.
  destruct (lookup (Path.locate c src) (disk w)) as [s|] eqn:Hs;
    [|intros [= <- <-]; auto].
  destruct (match lookup (Path.locate c dest) (disk w) with
            | Some _ => _ | None => false end);
    [intros [= <- <-]; auto|].
  destruct (is_dir s && _); [intros [= <- <-]; auto|].
  destruct (copy_some s (lookup (Path.locate c dest) (disk w)))
    as (new & e & Hc).
  rewrite Hc. unfold bind at 1.
  destruct (lookup (parent (Path.locate c dest)) (disk w)) as [par|] eqn:Hp.
  - unfold ret at 1, bind at 1. simpl.
    unfold bind at 1.
    destruct (write (Path.locate c dest) new (disk w)) as [d2|] eqn:Hw;
      [|intros [= <- <-]; auto].
    simpl. destruct e as [code|]; intros [= <- <-]; simpl; auto.
    repeat split; auto. exists s, new. auto.
  - destruct (mkdir_p (parent (Path.locate c dest)) (disk w)) as [d1|];
      [|intros [= <- <-]; auto].
    simpl. unfold bind at 1. simpl.
    destruct (write (Path.locate c dest) new d1) as [d2|];
      [|intros [= <- <-]; auto].
    simpl. destruct e as [code|]; intros [= <- <-]; simpl; auto.
    repeat split; auto. exists s, new. repeat split; auto. congruence.
Qed.

Section Loop.
Variable inv : invocation.
Variable t : string.
Hypothesis Ht : t <> "".

Let T := Path.locate (cwd inv) t.
Let S := Path.locate (cwd inv) (skillsSource inv).

(** A round of the loop. *)
Lemma install_skill_cases (n : Z) (a : string) (w w' : world) (r : res Z) :
  install_skill inv t n a w = (r, w') ->
  tmp w' = tmp w /\
  match r with
  | Halt st => st <> 0
  | Val n' =>
      n' = incr n /\ out w' = (out w ++ [progress a])%list /\
      err w' = err w /\
      (Path.is_name a = true ->
       forall ts, lookup T (disk w) = Some (Dir ts) ->
       exists x, copied S a (disk w) ts x /\
                 write T (Dir (put a x ts)) (disk w) = Some (disk w'))
  end.
Proof.
  unfold install_skill, bind at 1.
  destruct (cpSync _ _ _ w) as [r0 w0] eqn:Hcp.
  apply cpSync_cases in Hcp as (Hout & Htmp & Hr).
  destruct r0 as [[]|st]; [|intros [= <- <-]; auto].
  destruct Hr as (Herr & s & new & Hs & Hc & Hw).
  intros [= <- <-]. simpl. rewrite Hout. repeat split; auto.
  intros Ha ts HT.
  rewrite locate_path_join in Hs by (assumption || apply resolve_nonempty).
  rewrite locate_path_join in Hc, Hw by assumption.
  fold S in Hs. fold T in Hc, Hw.
  rewrite parent_snoc in Hw.
  rewrite (lookup_child _ _ _ _ HT) in Hc.
  exists new. split; [exists s; auto|].
  rewrite <- (write_child _ _ _ _ _ HT). apply Hw. now rewrite HT.
Qed.

(** The loop over the skills. *)
Lemma loop_cases (skills : list string) (n : Z) (w w' : world) (r : res Z) :
  foldM (install_skill inv t) skills n w = (r, w') ->
  tmp w' = tmp w /\
  match r with
  | Halt st => st <> 0
  | Val n' =>
      n' = fold_left (fun k _ => incr k) skills n /\
      out w' = (out w ++ map progress skills)%list /\
      err w' = err w /\
      (Forall (fun a => Path.is_name a = true) skills ->
       (exists ts, lookup T (disk w) = Some (Dir ts)) ->
       puts T (copied S) skills (disk w) (disk w'))
  end.
Proof.
  revert n w. induction skills as [|a rest IH]; intros n w; simpl.
  - intros [= <- <-]. repeat split; [now rewrite app_nil_r|]. constructor.
  - unfold bind at 1.
    destruct (install_skill inv t n a w) as [r0 w0] eqn:Hstep.
    apply install_skill_cases in Hstep as (Htmp & Hr).
    destruct r0 as [n0|st]; [|intros [= <- <-]; auto].
    destruct Hr as (-> & Hout & Herr & Hdisk).
    intros Hrest. apply IH in Hrest as (Htmp' & Hr').
    split; [congruence|].
    destruct r as [n'|st]; [|assumption].
    destruct Hr' as (-> & Hout' & Herr' & Hdisk').
    repeat split; [|congruence|].
    + rewrite Hout', Hout, <- app_assoc. reflexivity.
    + intros Hnames [ts HT]. inversion Hnames as [|? ? Ha Hrest']; subst.
      destruct (Hdisk Ha ts HT) as (x & Hx & Hw).
      econstructor; try eassumption.
      apply Hdisk'; [assumption|].
      exists (put a x ts). rewrite <- (app_nil_r T).
      now rewrite (lookup_write _ _ _ _ _ Hw).
Qed.

End Loop.

Lemma incr_count (l : list string) (n : Z) :
  (0 <= n)%Z -> (n + Z.of_nat (length l) <= 2 ^ 53)%Z ->
  fold_left (fun k _ => incr k) l n = (n + Z.of_nat (length l))%Z.
Proof.
  revert n. induction l as [|a l IH]; intros n Hn Hb; simpl fold_left.
  - simpl. lia.
  - change (length (a :: l)) with (Datatypes.S (length l)) in *.
    unfold incr at 2. destruct (Z.ltb_spec n (2 ^ 53)); [|lia].
    rewrite IH by lia. lia.
Qed.

(** The script from its first [console.log] on. *)
Lemma install_all_cases (inv : invocation) (t : string)
  (skills : list string) (w w' : world) (r : res unit) :
  t <> "" ->
  install_all inv t skills w = (r, w') ->
  tmp w' = tmp w /\
  match r with
  | Halt st => st <> 0
  | Val _ =>
      err w' = err w /\
      ((Z.of_nat (length skills) <= 2 ^ 53)%Z ->
       out w' = (out w ++ report (isGlobal inv) t skills)%list) /\
      (Forall (fun a => Path.is_name a = true) skills ->
       (exists ts, lookup (Path.locate (cwd inv) t) (disk w) = Some (Dir ts)) ->
       puts (Path.locate (cwd inv) t)
         (copied (Path.locate (cwd inv) (skillsSource inv)))
         skills (disk w) (disk w'))
  end.
Proof.
  intros Ht. unfold install_all, console_log.
  repeat (rewrite bind_print; cbv beta). rewrite bind_cases.
  destruct (foldM _ skills 0%Z _) as [r0 w0] eqn:Hloop.
  apply (loop_cases inv t Ht) in Hloop as (Htmp & Hr).
  destruct r0 as [n|st]; [|intros [= <- <-]; auto].
  destruct Hr as (-> & Hout & Herr & Hdisk).
  repeat (rewrite bind_print; cbv beta). unfold print.
  intros [= <- <-]. simpl in *. repeat split; auto.
  intros Hb. rewrite Hout. unfold report.
  rewrite incr_count by lia. simpl.
  repeat (rewrite <- app_assoc; simpl). reflexivity.
Qed.

End JsFacts.

(** ** The remote-fetch installer *)

Section ShFacts.
Import Proc Fs Bash.
Context {lc : Bash.Locale}.

Lemma sh_copy_some (src : node) (dest : option node) :
  exists n ok, copy src dest = (Some n, ok).
Proof.
  destruct src as [c|t|ses]; simpl.
  - destruct dest as [[| |]|]; eauto.
  - destruct dest as [[| |]|]; eauto.
  - destruct dest as [[| |des]|]; eauto;
      destruct (copyDir copy ses _); eauto.
Qed.

(** A directory that [cp -r] could copy is a directory where it was
    copied to, and was not copied onto a file or a link. *)
Lemma sh_copy_dir (ses : entries_t) (dest : option node) (n : node) :
  copy (Dir ses) dest = (Some n, true) ->
  is_dir n = true /\
  match dest with Some (File _) | Some (Link _) => False | _ => True end.
Proof.
  simpl. destruct dest as [[| |des]|]; try discriminate;
    destruct (copyDir copy ses _); intros [= <- _]; auto.
Qed.

(** What a call of [cp -r] does: it prints nothing; when it succeeds, the
    source is a directory (or leads to one) and its copy is at the
    destination, or inside the directory that was there; when it fails,
    the script ends with status 1. *)
Lemma cp_r_cases (fl : string -> option node) (c : string)
  (src : list string) (dest : string) (w w' : world) (r : res unit) :
  cp_r fl c src dest w = (r, w') ->
  out w' = out w /\ tmp w' = tmp w /\
  match r with
  | Halt st => st = 1
  | Val _ =>
      err w' = err w /\
      exists ses new,
        let dp := Path.locate c dest in
        let dp' := match lookup dp (disk w) with
                   | Some (Dir _) => (dp ++ [basename src])%list
                   | _ => dp
                   end in
        copy (Dir ses) (lookup dp' (disk w)) = (Some new, true) /\
        write dp' new (disk w) = Some (disk w')
  end.
Proof.
  unfold cp_r. rewrite bind_cases. unfold get_tmp at 1.
  rewrite bind_cases. unfold get_disk at 1.
  destruct (match tmp w with Some n => _ | None => None end)
    as [[| |ses]|]; try (intros [= <- <-]; now auto).
  set (dp := Path.locate c dest).
  set (dp' := match lookup dp (disk w) with
              | Some (Dir _) => (dp ++ [basename src])%list
              | _ => dp
              end).
  destruct (sh_copy_some (Dir ses) (lookup dp' (disk w))) as (new & ok & Hc).
  rewrite Hc, bind_cases.
  destruct (write dp' new (disk w)) as [d2|] eqn:Hw;
    [|intros [= <- <-]; now auto].
  simpl. destruct ok; intros [= <- <-]; simpl; auto.
  repeat split; auto. now exists ses, new.
Qed.

Section Loop.
Variable inv : invocation.
Variable t : string.
Hypothesis Ht : t <> "".

Let T := Path.locate (pwd inv) t.

(** A round of the loop, on the skill directory called [name]. *)
Lemma sh_install_skill_cases (n : Z) (name : string) (w w' : world)
  (r : res Z) :
  install_skill inv t n ["repo"; "skills"; name] w = (r, w') ->
  tmp w' = tmp w /\
  match r with
  | Halt st => st = 1
  | Val n' =>
      n' = add1 n /\
      out w' = (out w ++ [progress (Str.strip_newlines name)])%list /\
      err w' = err w /\
      (Path.is_name (Str.strip_newlines name) = true ->
       forall ts, lookup T (disk w) = Some (Dir ts) ->
       exists x, placed (Str.strip_newlines name) (disk w) ts x /\
                 write T (Dir (put (Str.strip_newlines name) x ts)) (disk w)
                 = Some (disk w'))
  end.
Proof.
  unfold install_skill. rewrite bind_cases.
  destruct (cp_r _ _ _ _ w) as [r0 w0] eqn:Hcp.
  apply cp_r_cases in Hcp as (Hout & Htmp & Hr).
  destruct r0 as [[]|st]; [|intros [= <- <-]; auto].
  destruct Hr as (Herr & ses & new & Hc & Hw).
  intros [= <- <-]. simpl. rewrite Hout. repeat split; auto.
  intros Ha ts HT.
  change (basename ["repo"; "skills"; name]) with name in *.
  set (sn := Str.strip_newlines name) in *.
  rewrite locate_child in Hc, Hw by assumption. fold T in Hc, Hw.
  rewrite (lookup_child _ _ _ _ HT) in Hc, Hw.
  apply sh_copy_dir in Hc as [Hdir Hdest].
  destruct (find sn ts) as [[c|l|inner]|] eqn:Hf.
  - rewrite (lookup_child _ _ _ _ HT), Hf in Hdest. contradiction.
  - rewrite (lookup_child _ _ _ _ HT), Hf in Hdest. contradiction.
  - exists (Dir (put name new inner)). split; [reflexivity|].
    rewrite <- (write_child _ _ _ _ _ HT).
    rewrite <- (write_child (T ++ [sn]) name new (disk w) inner); [exact Hw|].
    now rewrite (lookup_child _ _ _ _ HT).
  - exists new. split; [exact Hdir|].
    now rewrite <- (write_child _ _ _ _ _ HT).
Qed.

(** The loop over the skill directories called [names]. *)
Lemma sh_loop_cases (names : list string) (n : Z) (w w' : world) (r : res Z) :
  foldM (install_skill inv t)
    (map (fun name => ["repo"; "skills"; name]) names) n w = (r, w') ->
  tmp w' = tmp w /\
  match r with
  | Halt st => st = 1
  | Val n' =>
      n' = fold_left (fun k _ => add1 k) names n /\
      out w'
      = (out w ++ map (fun name => progress (Str.strip_newlines name)) names)%list /\
      err w' = err w /\
      (Forall (fun a => Path.is_name (Str.strip_newlines a) = true) names ->
       (exists ts, lookup T (disk w) = Some (Dir ts)) ->
       puts T placed (map Str.strip_newlines names) (disk w) (disk w'))
  end.
Proof.
  revert n w. induction names as [|a rest IH]; intros n w; simpl.
  - intros [= <- <-]. repeat split; [now rewrite app_nil_r|]. constructor.
  - rewrite bind_cases.
    destruct (install_skill inv t n _ w) as [r0 w0] eqn:Hstep.
    apply sh_install_skill_cases in Hstep as (Htmp & Hr).
    destruct r0 as [n0|st]; [|intros [= <- <-]; auto].
    destruct Hr as (-> & Hout & Herr & Hdisk).
    intros Hrest. apply IH in Hrest as (Htmp' & Hr').
    split; [congruence|].
    destruct r as [n'|st]; [|assumption].
    destruct Hr' as (-> & Hout' & Herr' & Hdisk').
    repeat split; [|congruence|].
    + rewrite Hout', Hout, <- app_assoc. reflexivity.
    + intros Hnames [ts HT]. inversion Hnames as [|? ? Ha Hrest']; subst.
      destruct (Hdisk Ha ts HT) as (x & Hx & Hw).
      econstructor; try eassumption.
      apply Hdisk'; [assumption|].
      exists (put (Str.strip_newlines a) x ts). rewrite <- (app_nil_r T).
      now rewrite (lookup_write _ _ _ _ _ Hw).
Qed.

End Loop.

Lemma add1_count (l : list string) (n : Z) :
  (0 <= n)%Z -> (n + Z.of_nat (length l) < 2 ^ 63)%Z ->
  fold_left (fun k _ => add1 k) l n = (n + Z.of_nat (length l))%Z.
Proof.
  revert n. induction l as [|a l IH]; intros n Hn Hb; simpl fold_left.
  - simpl. lia.
  - change (length (a :: l)) with (Datatypes.S (length l)) in *.
    assert (E : add1 n = (n + 1)%Z).
    { unfold add1, wrap64. rewrite Z.mod_small; lia. }
    rewrite E, IH by lia. lia.
Qed.

Lemma find_In (k : string) (es : entries_t) (m : node) :
  find k es = Some m -> In (k, m) es.
Proof.
  induction es as [|[k' m'] es IH]; simpl; [discriminate|].
  destruct (String.eqb_spec k' k) as [->|_]; [intros [= ->]; now left|].
  intros H. right. now apply IH.
Qed.

Lemma insert_length (s : string) (l : list string) :
  length (insert s l) = Datatypes.S (length l).
Proof.
  induction l as [|x l IH]; simpl; [reflexivity|].
  destruct (before s x); simpl; [reflexivity|now rewrite IH].
Qed.

Lemma sort_length (l : list string) : length (sort l) = length l.
Proof.
  induction l as [|x l IH]; simpl; [reflexivity|].
  now rewrite insert_length, IH.
Qed.



Lemma matched_nil (fl : string -> option node) (es : entries_t) :
  matched fl es = [] -> forall e, In e es -> matches fl e = false.
Proof.
  unfold matched. intros H e He.
  destruct (matches fl e) eqn:Hm; [|reflexivity].
  assert (Hin : In e (filter (matches fl) es)) by (apply filter_In; auto).
  apply (f_equal (@length string)) in H.
  rewrite sort_length in H. unfold names in H. rewrite length_map in H.
  destruct (filter (matches fl) es); [contradiction|discriminate].
Qed.

(** When the pattern matches nothing it stays as it is, and [cp] does not
    find what it names. *)
Lemma unmatched_fails (inv : invocation) (t : string) (n : Z) (w : world) :
  match tmp w with
  | Some m =>
      match lookup ["repo"; "skills"] m with
      | Some (Dir es) => matched (follow inv) es
      | _ => []
      end
  | None => []
  end = [] ->
  install_skill inv t n ["repo"; "skills"; "*"] w
  = (Halt 1, add_err "cp: cannot stat" w).
Proof.
  intros H. unfold install_skill, cp_r.
  rewrite !bind_cases. unfold get_tmp at 1. unfold get_disk at 1.
  destruct (tmp w) as [m|]; [|reflexivity].
  change ["repo"; "skills"; "*"] with (["repo"; "skills"] ++ ["*"])%list.
  rewrite lookup_app.
  destruct (lookup ["repo"; "skills"] m) as [[c|l|es]|]; try reflexivity.
  simpl. destruct (find "*" es) as [x|] eqn:Hf; [|reflexivity].
  apply find_In in Hf. apply (matched_nil _ _ H) in Hf.
  unfold matches in Hf. simpl in Hf.
  destruct (stat (follow inv) x) as [[| |]|]; try reflexivity. discriminate.
Qed.

(** The script after [mkdir -p]. *)
Lemma sh_install_all_cases (inv : invocation) (t : string) (w w' : world)
  (r : res unit) :
  t <> "" ->
  install_all inv t w = (r, w') ->
  tmp w' = tmp w /\
  match r with
  | Halt st => st = 1
  | Val _ =>
      exists m es,
        tmp w = Some m /\ lookup ["repo"; "skills"] m = Some (Dir es) /\
        matched (follow inv) es <> [] /\
        err w' = err w /\
        ((Z.of_nat (length (matched (follow inv) es)) < 2 ^ 63)%Z ->
         out w'
         = (out w ++ report_install (GLOBAL inv) t
                       (matched (follow inv) es))%list) /\
        (Forall (fun a => Path.is_name (Str.strip_newlines a) = true)
           (matched (follow inv) es) ->
         (exists ts, lookup (Path.locate (pwd inv) t) (disk w)
                     = Some (Dir ts)) ->
         puts (Path.locate (pwd inv) t) placed
           (map Str.strip_newlines (matched (follow inv) es))
           (disk w) (disk w'))
  end.
Proof.
  intros Ht. unfold install_all, echo.
  assert (Hb : forall s1 s2 (k : unit -> M unit) w0,
             bind (if GLOBAL inv then print s1 else print s2) k w0
             = k tt (add_out (if GLOBAL inv then s1 else s2) w0))
    by (intros; destruct (GLOBAL inv); reflexivity).
  rewrite Hb. repeat (rewrite bind_print; cbv beta).
  rewrite bind_cases. unfold get_tmp at 1. cbv beta iota.
  rewrite bind_cases. unfold glob.
  change (tmp (add_out "" (add_out _ w))) with (tmp w).
  destruct (match tmp w with Some m => _ | None => [] end)
    as [|a found] eqn:Hfound.
  - cbn [foldM]. rewrite bind_cases, unmatched_fails by exact Hfound.
    intros [= <- <-]. auto.
  - set (names := a :: found) in *.
    assert (Hne : names <> []) by discriminate. clearbody names.
    destruct (foldM _ (map _ names) 0%Z _) as [r0 w0] eqn:Hloop.
    apply (sh_loop_cases inv t Ht) in Hloop as (Htmp & Hr).
    destruct r0 as [n|st]; [|intros [= <- <-]; auto].
    destruct Hr as (-> & Hout & Herr & Hdisk).
    repeat (rewrite bind_print; cbv beta). unfold print.
    intros [= <- <-]. simpl tmp. split; [exact Htmp|].
    destruct (tmp w) as [m|]; [|now symmetry in Hfound].
    destruct (lookup ["repo"; "skills"] m) as [[c|l|es]|] eqn:Hl;
      try now symmetry in Hfound.
    exists m, es. rewrite Hfound.
    split; [reflexivity|]. split; [exact Hl|]. split; [exact Hne|].
    split; [exact Herr|]. split; [|exact Hdisk].
    intros Hbound. cbn [out add_out]. rewrite Hout. unfold report_install.
    rewrite add1_count by lia. cbn [out add_out Z.add].
    repeat (rewrite <- app_assoc; cbn [app]). reflexivity.
Qed.


(** The script up to [mkdir -p], case by case; the directory of
    [mktemp -d] is gone whenever it was made. *)
Lemma sh_install_cases (inv : invocation) (w : world) :
  install inv w
  = match TARGET inv with
    | None => (Halt 1, add_err "HOME: unbound variable" w)
    | Some t =>
        if mktemp inv then
          let w1 := add_out "Cloning Next.js Claude skills..." (add_out "" w) in
          match git_clone inv with
          | CloneFailed msg => (Halt 128, set_tmp None (add_err msg w1))
          | Cloned repo =>
              match Fs.mkdir_p (Path.locate (pwd inv) t) (disk w) with
              | None =>
                  (Halt 1,
                   set_tmp None (add_err "mkdir: cannot create directory" w1))
              | Some d1 =>
                  trap_EXIT rm_rf_TMPDIR (install_all inv t)
                    (set_disk d1
                       (set_tmp (Some (Dir [("repo", repo)])) w1))
              end
          end
        else (Halt 1, add_err "mktemp: failed to create directory" w)
    end.
Proof.
  unfold install, TMPDIR, script, clone, mkdir_p, echo.
  destruct (TARGET inv) as [t|]; [|reflexivity].
  destruct (mktemp inv); [|reflexivity].
  destruct (git_clone inv) as [repo|msg]; [|reflexivity].
  cbv beta iota zeta
    delta [bind ret put_tmp print get_tmp get_disk put_disk fail eprint exit
           trap_EXIT set_tmp set_disk add_out add_err].
  cbn [disk tmp out err].
  destruct (Fs.mkdir_p _ (disk w)); reflexivity.
Qed.

End ShFacts.

(** ** Copies of trees *)

Section CopyFacts.
Import Fs NodeJs.

(** Induction on a tree, with the hypothesis for every entry of a
    directory. *)
Lemma node_induction (P : node -> Prop) :
  (forall c, P (File c)) ->
  (forall t, P (Link t)) ->
  (forall es, Forall (fun e => P (snd e)) es -> P (Dir es)) ->
  forall n, P n.
Proof.
  intros HF HL HD.
  fix IH 1. intros [c|t|es]; [apply HF|apply HL|].
  apply HD. induction es as [|[k m] es IHes]; constructor; [apply IH|exact IHes].
Qed.

Lemma distinct_find (k : string) (n : node) (es : entries_t) :
  distinct (map fst ((k, n) :: es)) = true -> find k es = None.
Proof.
  simpl. intros H. apply andb_true_iff in H as [H _].
  apply negb_true_iff in H.
  induction es as [|[k' m] es IH]; simpl in *; [reflexivity|].
  apply orb_false_iff in H as [H1 H2]. rewrite H1. now apply IH.
Qed.

Lemma wf_Dir (es : entries_t) :
  wf (Dir es) = true ->
  distinct (map fst es) = true /\
  Forall (fun e => Path.is_name (fst e) = true) es /\
  Forall (fun e => wf (snd e) = true) es.
Proof.
  simpl. intros H. apply andb_true_iff in H as [H H3].
  apply andb_true_iff in H as [H1 H2]. split; [exact H1|]. split.
  - clear H1 H3. induction es as [|[k m] es IH]; constructor; simpl in H2;
      apply andb_true_iff in H2 as [Hk H2]; [exact Hk|now apply IH].
  - clear H1 H2. induction es as [|[k m] es IH]; constructor;
      apply andb_true_iff in H3 as [Hm H3]; [exact Hm|now apply IH].
Qed.

(** The loop of [copyDir], when it ends without an error: every entry of
    the source was copied onto the entry of its name, and the other
    entries of the destination are as they were. *)
Lemma copyDir_ok (ses des des' : entries_t) :
  distinct (map fst ses) = true ->
  copyDir copy ses des = (des', None) ->
  (forall k s, find k ses = Some s ->
     exists n, find k des' = Some n /\ copy s (find k des) = (Some n, None)) /\
  (forall k, find k ses = None -> find k des' = find k des).
Proof.
  revert des. induction ses as [|[k0 s0] ses IH]; intros des Hd H.
  - simpl in H. injection H as <-. split; [discriminate|reflexivity].
  - pose proof (distinct_find _ _ _ Hd) as Hk0.
    simpl in Hd. apply andb_true_iff in Hd as [_ Hd].
    simpl in H.
    destruct (copy_some s0 (find k0 des)) as (d0 & e & Hc).
    rewrite Hc in H. destruct e as [e|]; [discriminate|].
    destruct (IH _ Hd H) as [IH1 IH2]. split.
    + intros k s. simpl. destruct (String.eqb_spec k0 k) as [->|Hne].
      * intros [= <-]. exists d0. split; [|exact Hc].
        now rewrite (IH2 _ Hk0), find_put_same.
      * intros Hs. destruct (IH1 _ _ Hs) as (n & Hn & Hcn).
        exists n. split; [exact Hn|].
        now rewrite find_put_other in Hcn.
    + intros k. simpl. destruct (String.eqb_spec k0 k) as [->|Hne];
        [discriminate|].
      intros Hs. now rewrite (IH2 _ Hs), find_put_other.
Qed.

(** A copy that ends without an error has put every file of the source,
    with its content, at the same place under the destination. *)
Lemma copy_files (src : node) :
  wf src = true ->
  forall dest n, copy src dest = (Some n, None) ->
  forall p c, lookup p src = Some (File c) -> lookup p n = Some (File c).
Proof.
  induction src as [c0|t|ses IH] using node_induction; intros Hwf dest n Hc p c Hp.
  - destruct p; [|discriminate]. simpl in Hp. injection Hp as ->.
    simpl in Hc. destruct dest as [[| |]|]; now inversion Hc.
  - destruct p; discriminate.
  - destruct p as [|k r]; [discriminate|]. simpl in Hp.
    destruct (find k ses) as [s|] eqn:Hs; [|discriminate].
    apply wf_Dir in Hwf as (Hd & _ & Hwfs).
    simpl in Hc.
    assert (Hgo : exists des des', n = Dir des' /\
                    copyDir copy ses des = (des', None)).
    { destruct dest as [[| |des]|]; try discriminate;
        destruct (copyDir copy ses _) as [des' e] eqn:Hgo;
        injection Hc as <- ->; eauto. }
    destruct Hgo as (des & des' & -> & Hgo).
    destruct (copyDir_ok _ _ _ Hd Hgo) as [H1 _].
    destruct (H1 _ _ Hs) as (m & Hm & Hcm).
    simpl. rewrite Hm.
    apply find_In in Hs.
    rewrite Forall_forall in IH, Hwfs.
    exact (IH _ Hs (Hwfs _ Hs) _ _ Hcm _ _ Hp).
Qed.

(** The copy of a directory is a directory; the entries of the
    destination that the source does not have are kept. *)
Lemma copy_dir (ses : entries_t) (dest : option node) (n : node) :
  distinct (map fst ses) = true ->
  copy (Dir ses) dest = (Some n, None) ->
  exists new,
    n = Dir new /\
    forall k, find k ses = None ->
      find k new = match dest with
                   | Some (Dir des) => find k des
                   | _ => None
                   end.
Proof.
  intros Hd Hc. simpl in Hc.
  destruct dest as [[| |des]|]; try discriminate;
    destruct (copyDir copy ses _) as [des' e] eqn:Hgo;
    injection Hc as <- ->; exists des'; (split; [reflexivity|]);
    destruct (copyDir_ok _ _ _ Hd Hgo) as [_ H2]; exact H2.
Qed.

End CopyFacts.

(** * The claims *)

Section Claims.
Import Proc Fs Installer.
Context {rt : NodeJs.Runtime} {lc : Bash.Locale}.

(** ** Destination selection *)

Lemma includes_In (l : list string) (x : string) :
  NodeJs.includes l x = true <-> In x l.
Proof.
  unfold NodeJs.includes. rewrite existsb_exists. split.
  - intros (y & Hy & E). apply String.eqb_eq in E. now subst.
  - intros H. exists x. split; [exact H|apply String.eqb_refl].
Qed.

Lemma GLOBAL_In (inv : Bash.invocation) :
  Bash.GLOBAL inv = true <-> In "--global" (Bash.args inv).
Proof.
  unfold Bash.GLOBAL.
  assert (H : forall l g,
             fold_left (fun g arg => if arg =? "--global" then true else g) l g
             = true <-> g = true \/ In "--global" l).
  { induction l as [|a l IH]; intros g; simpl.
    - tauto.
    - rewrite IH. destruct (String.eqb_spec a "--global") as [->|Hne].
      + tauto.
      + split; intros [H|H]; auto. destruct H as [H|H]; [contradiction|auto]. }
  rewrite H. split; [intros [E|E]; [discriminate|exact E]|auto].
Qed.

(** The destination as a function of the flag, the home directory and the
    working directory. *)
Lemma destination_eq (v : variant) :
  destination v
  = if global v
    then option_map (claude_skills v) (home v)
    else Some (claude_skills v (working_directory v)).
Proof.
  destruct v as [i|i]; simpl.
  - unfold NodeJs.targetBase, Path.join, NodeJs.path_join. simpl.
    destruct (NodeJs.isGlobal i).
    + destruct (NodeJs.home i) as [h|]; [|reflexivity].
      simpl. unfold NodeJs.path_join. simpl. destruct (h =? ""); reflexivity.
    + destruct (NodeJs.cwd i =? ""); reflexivity.
  - unfold Bash.TARGET. destruct (Bash.GLOBAL i); [|reflexivity].
    destruct (Bash.HOME i); reflexivity.
Qed.

Lemma claude_skills_located (v : variant) (c base : string) :
  base <> "" ->
  Path.locate c (claude_skills v base)
  = (Path.locate c base ++ [".claude"; "skills"])%list.
Proof.
  intros Hb. destruct v; simpl.
  - now apply locate_claude_skills.
  - assert (E : base ++ "/.claude/skills"
                = (base ++ "/" ++ ".claude") ++ "/" ++ "skills")
      by (rewrite !string_app_assoc; reflexivity).
    rewrite E, !locate_child; try reflexivity; try assumption.
    + now rewrite <- app_assoc.
    + now apply append_nonempty.
Qed.

Lemma claude_skills_nonempty (v : variant) (base : string) :
  claude_skills v base <> "".
Proof.
  destruct v; simpl; [apply path_join_nonempty|].
  destruct base; discriminate.
Qed.

Lemma destination_nonempty (v : variant) (t : string) :
  destination v = Some t -> t <> "".
Proof.
  rewrite destination_eq. destruct (global v).
  - destruct (home v); [|discriminate]. intros [= <-].
    apply claude_skills_nonempty.
  - intros [= <-]. apply claude_skills_nonempty.
Qed.

(** ** Runs *)

(** A run of the local variant that ends with status 0. *)
Lemma local_success (inv : NodeJs.invocation) (d : node) (w : world) :
  NodeJs.main inv d = (0, w) ->
  exists t es d1,
    NodeJs.targetBase inv = Some t /\
    lookup (Path.locate (NodeJs.cwd inv) (NodeJs.skillsSource inv)) d
    = Some (Dir es) /\
    dir_names es <> [] /\
    mkdir_p (Path.locate (NodeJs.cwd inv) t) d = Some d1 /\
    err w = [] /\
    ((Z.of_nat (length (dir_names es)) <= 2 ^ 53)%Z ->
     out w = NodeJs.report (NodeJs.isGlobal inv) t (dir_names es)) /\
    (Forall (fun a => Path.is_name a = true) (dir_names es) ->
     puts (Path.locate (NodeJs.cwd inv) t)
       (NodeJs.copied (Path.locate (NodeJs.cwd inv) (NodeJs.skillsSource inv)))
       (dir_names es) d1 (disk w)).
Proof.
  unfold NodeJs.main, Proc.run. rewrite install_cases. simpl disk.
  destruct (NodeJs.targetBase inv) as [t|] eqn:Ht; [|discriminate].
  destruct (lookup _ d) as [[c|l|es]|]; try discriminate.
  destruct (dir_names es) as [|a names] eqn:Hn; [discriminate|].
  rewrite <- Hn.
  destruct (mkdir_p _ d) as [d1|] eqn:Hm; [|discriminate].
  assert (Hne : t <> "") by (apply (destination_nonempty (Local inv)), Ht).
  destruct (NodeJs.install_all _ _ _ _) as [r w'] eqn:Hall.
  apply (install_all_cases _ _ _ _ _ _ Hne) in Hall as (_ & Hr).
  destruct r as [[]|st]; [|intros [= -> <-]; now elim Hr].
  intros [= <-]. destruct Hr as (Herr & Hout & Hdisk).
  exists t, es, d1.
  do 2 (split; [auto|]). split; [rewrite Hn; discriminate|].
  do 3 (split; [auto|]).
  intros Hnames. apply Hdisk; [exact Hnames|].
  simpl. now apply (mkdir_p_dir _ d).
Qed.

(** A run of the remote variant that ends with status 0. *)
Lemma remote_success (inv : Bash.invocation) (d : node) (w : world) :
  Bash.main inv d = (0, w) ->
  exists t repo es d1,
    Bash.TARGET inv = Some t /\
    Bash.git_clone inv = Bash.Cloned repo /\
    lookup ["skills"] repo = Some (Dir es) /\
    Bash.matched (Bash.follow inv) es <> [] /\
    mkdir_p (Path.locate (Bash.pwd inv) t) d = Some d1 /\
    tmp w = None /\ err w = [] /\
    ((Z.of_nat (length (Bash.matched (Bash.follow inv) es)) < 2 ^ 63)%Z ->
     out w = Bash.report (Bash.GLOBAL inv) t
               (Bash.matched (Bash.follow inv) es)) /\
    (Forall (fun a => Path.is_name (Str.strip_newlines a) = true)
       (Bash.matched (Bash.follow inv) es) ->
     puts (Path.locate (Bash.pwd inv) t) Bash.placed
       (map Str.strip_newlines (Bash.matched (Bash.follow inv) es))
       d1 (disk w)).
Proof.
  unfold Bash.main, Proc.run. rewrite sh_install_cases. simpl disk.
  destruct (Bash.TARGET inv) as [t|] eqn:Ht; [|discriminate].
  destruct (Bash.mktemp inv); [|discriminate].
  destruct (Bash.git_clone inv) as [repo|msg]; [|discriminate].
  destruct (mkdir_p _ d) as [d1|] eqn:Hm; [|discriminate].
  assert (Hne : t <> "") by (apply (destination_nonempty (Remote inv)), Ht).
  unfold Bash.trap_EXIT.
  destruct (Bash.install_all _ _ _) as [r w'] eqn:Hall.
  apply (sh_install_all_cases _ _ _ _ _ Hne) in Hall as (_ & Hr).
  destruct r as [[]|st]; [|intros [= -> <-]; discriminate Hr].
  intros [= <-].
  destruct Hr as (m & es & Hm' & Hes & Hmatched & Herr & Hout & Hdisk).
  simpl in Hm'. injection Hm' as <-.
  change (lookup ["repo"; "skills"] (Dir [("repo", repo)]))
    with (lookup ["skills"] repo) in Hes.
  exists t, repo, es, d1.
  do 7 (split; [auto|]). split.
  - intros Hb. simpl. rewrite (Hout Hb). reflexivity.
  - intros Hnames. apply Hdisk; [exact Hnames|].
    simpl. now apply (mkdir_p_dir _ d).
Qed.

(** ** Failures before the destination is touched *)

(** C10.  Local variant: with [--global] among the arguments and neither
    [HOME] nor [USERPROFILE] set, computing the destination raises; the
    run ends with status 1 and the file system is as it was. *)
Theorem global_without_home_fails (inv : NodeJs.invocation) (d : node) :
  In "--global" (NodeJs.args inv) ->
  getenv (NodeJs.env inv) "HOME" = None ->
  getenv (NodeJs.env inv) "USERPROFILE" = None ->
  NodeJs.targetBase inv = None /\
  NodeJs.main inv d = (1, World d None [] ["Uncaught ERR_INVALID_ARG_TYPE"]).
Proof.
  intros Hg Hh Hu.
  assert (Ht : NodeJs.targetBase inv = None).
  { unfold NodeJs.targetBase, NodeJs.isGlobal, NodeJs.home.
    apply includes_In in Hg. now rewrite Hg, Hh, Hu. }
  split; [exact Ht|].
  unfold NodeJs.main, Proc.run. now rewrite install_cases, Ht.
Qed.

(** C6.  When the payload source cannot be located (local variant) or the
    snapshot cannot be fetched (remote variant), the run reports an error,
    ends with a status that is not zero, and the file system is as it
    was. *)
Theorem missing_payload_fails (v : variant) (d : node) (st : nat) (w : world) :
  payload_missing v d ->
  run v d = (st, w) ->
  st <> 0 /\ err w <> [] /\ disk w = d.
Proof.
  destruct v as [inv|inv]; simpl.
  - intros Hmiss. unfold NodeJs.main, Proc.run.
    rewrite install_cases. simpl disk. rewrite Hmiss.
    destruct (NodeJs.targetBase inv); intros [= <- <-];
      repeat split; discriminate.
  - intros [msg Hmiss]. unfold Bash.main, Proc.run.
    rewrite sh_install_cases, Hmiss.
    destruct (Bash.TARGET inv); [destruct (Bash.mktemp inv)|];
      intros [= <- <-]; repeat split; discriminate.
Qed.

(** C7.  Remote variant: when the script ends, however it ends, the
    directory of [mktemp -d] is not there; and when the fetch fails the
    run fails and the file system is as it was. *)
Theorem temporary_directory_removed (inv : Bash.invocation) (d : node)
  (st : nat) (w : world) :
  Bash.main inv d = (st, w) ->
  tmp w = None /\
  (forall msg, Bash.git_clone inv = Bash.CloneFailed msg ->
     st <> 0 /\ disk w = d).
Proof.
  unfold Bash.main, Proc.run. rewrite sh_install_cases.
  destruct (Bash.TARGET inv) as [t|];
    [|intros [= <- <-]; split; [reflexivity|split; [discriminate|reflexivity]]].
  destruct (Bash.mktemp inv);
    [|intros [= <- <-]; split; [reflexivity|split; [discriminate|reflexivity]]].
  destruct (Bash.git_clone inv) as [repo|msg];
    [|intros [= <- <-]; split; [reflexivity|split; [discriminate|reflexivity]]].
  cbv zeta. destruct (mkdir_p _ _) as [d1|].
  - unfold Bash.trap_EXIT.
    destruct (Bash.install_all _ _ _) as [r w'].
    destruct r; intros [= <- <-]; (split; [reflexivity|discriminate]).
  - intros [= <- <-]. split; [reflexivity|discriminate].
Qed.


(** ** Successful runs *)

(** After a run that ends with status 0, standard output is the banner,
    one progress line for each skill directory the variant found in the
    payload source, in the order of its loop, and the summary, whose
    count is the number of the skill directories it found. *)
Lemma found_reported (v : variant) (d : node) (w : world) :
  run v d = (0, w) ->
  exists t es,
    destination v = Some t /\ payload v d = Some es /\
    skills v es <> [] /\
    (countable v (length (skills v es)) ->
     out w = report v t (skills v es) /\
     In (summary (length (skills v es))) (out w)).
Proof.
  assert (Hin : forall (a b c : list string) x, In x c -> In x (a ++ b ++ c)%list)
    by (intros; rewrite !in_app_iff; auto).
  destruct v as [inv|inv];
    cbn [run destination payload skills countable report].
  - intros H.
    apply local_success in H as (t & es & d1 & Ht & Hes & Hne & _ & _ & Hout & _).
    exists t, es. rewrite Hes. repeat split; auto.
    rewrite (Hout H). unfold NodeJs.report. apply Hin. right; now left.
  - intros H.
    apply remote_success in H
      as (t & repo & es & d1 & Ht & Hr & Hes & Hne & _ & _ & _ & Hout & _).
    exists t, es. rewrite Hr, Hes. repeat split; auto.
    rewrite (Hout H). unfold Bash.report, Bash.report_install.
    right; right. apply Hin. right; now left.
Qed.

Lemma dir_names_In (es : entries_t) (k : string) :
  In k (dir_names es) <-> exists xs, In (k, Dir xs) es.
Proof.
  unfold dir_names, names. rewrite in_map_iff. split.
  - intros ([k' n] & E & Hin). simpl in E. subst k'.
    apply filter_In in Hin as [Hin Hd]. destruct n; try discriminate.
    eexists; eassumption.
  - intros [xs Hin]. exists (k, Dir xs). split; [reflexivity|].
    apply filter_In. now split.
Qed.

Lemma In_find (es : entries_t) (k : string) (n : node) :
  distinct (map fst es) = true -> In (k, n) es -> find k es = Some n.
Proof.
  induction es as [|[k' m] es IH]; intros Hd Hin; [contradiction|].
  pose proof (distinct_find _ _ _ Hd) as Hk'.
  simpl in Hd. apply andb_true_iff in Hd as [_ Hd]. simpl.
  destruct Hin as [[= -> ->]|Hin]; [now rewrite String.eqb_refl|].
  destruct (String.eqb_spec k' k) as [->|_]; [|now apply IH].
  rewrite (IH Hd Hin) in Hk'. discriminate.
Qed.

Lemma dir_names_is_name (es : entries_t) :
  wf (Dir es) = true ->
  Forall (fun a => Path.is_name a = true) (dir_names es).
Proof.
  intros Hwf. apply wf_Dir in Hwf as (_ & Hn & _).
  apply Forall_forall. intros k Hk.
  apply dir_names_In in Hk as [xs Hin].
  rewrite Forall_forall in Hn. exact (Hn _ Hin).
Qed.

Lemma apart_child (p q : list string) (a : string) :
  apart p q -> apart q (p ++ [a]).
Proof.
  intros H. apply apart_sym. rewrite <- (app_nil_r q). now apply apart_app.
Qed.

(** C9.  Local variant: the entries of the payload source that are not
    directories (files, links) are not among the skills; they do not
    count for the check of an empty payload, have no progress line, do not
    count in the total, and nothing is copied to the destination under
    their names. *)
Theorem non_directories_ignored (inv : NodeJs.invocation) (d : node)
  (es : entries_t) (st : nat) (w : world) :
  lookup (Path.locate (NodeJs.cwd inv) (NodeJs.skillsSource inv)) d
  = Some (Dir es) ->
  NodeJs.main inv d = (st, w) ->
  (forall k, In k (dir_names es) <-> exists xs, In (k, Dir xs) es) /\
  (dir_names es = [] -> st <> 0 /\ disk w = d) /\
  (st = 0 ->
   exists t,
     NodeJs.targetBase inv = Some t /\
     ((Z.of_nat (length (dir_names es)) <= 2 ^ 53)%Z ->
      out w = NodeJs.report (NodeJs.isGlobal inv) t (dir_names es)) /\
     (Forall (fun a => Path.is_name a = true) (dir_names es) ->
      forall k q, ~ In k (dir_names es) ->
        lookup (Path.locate (NodeJs.cwd inv) t ++ k :: q) (disk w)
        = lookup (Path.locate (NodeJs.cwd inv) t ++ k :: q) d)).
Proof.
  intros Hes Hrun. split; [intros k; apply dir_names_In|]. split.
  - intros Hnil. revert Hrun. unfold NodeJs.main, Proc.run.
    rewrite install_cases. simpl disk. rewrite Hes, Hnil.
    destruct (NodeJs.targetBase inv); intros [= <- <-]; split;
      (discriminate || reflexivity).
  - intros ->.
    apply local_success in Hrun
      as (t & es' & d1 & Ht & Hes' & _ & Hm & _ & Hout & Hputs).
    rewrite Hes in Hes'. injection Hes' as <-.
    exists t. split; [exact Ht|]. split; [exact Hout|].
    intros Hnames k q Hk.
    rewrite (puts_other _ _ _ _ _ (Hputs Hnames) k q Hk).
    apply (mkdir_p_inside _ (k :: q) _ _ Hm). discriminate.
Qed.






(** C3, amended.  Local variant: after a run that ends with status 0, a
    skill directory that was at the destination before has the copy of
    its source laid over it: every file of the source is there with the
    content of the source, and the entries that the source does not have
    are still there. *)
Theorem reinstall_overlays (inv : NodeJs.invocation) (d : node) (w : world)
  (t : string) (es : entries_t) (a : string) (ses old : entries_t) :
  NodeJs.main inv d = (0, w) ->
  NodeJs.targetBase inv = Some t ->
  lookup (Path.locate (NodeJs.cwd inv) (NodeJs.skillsSource inv)) d
  = Some (Dir es) ->
  tidy (Local inv) t es ->
  find a es = Some (Dir ses) ->
  lookup (Path.locate (NodeJs.cwd inv) t ++ [a]) d = Some (Dir old) ->
  exists new,
    lookup (Path.locate (NodeJs.cwd inv) t ++ [a]) (disk w) = Some (Dir new) /\
    (forall p c, lookup p (Dir ses) = Some (File c) ->
       lookup p (Dir new) = Some (File c)) /\
    (forall k, find k ses = None -> find k new = find k old).
Proof.
  intros Hrun Ht Hes [Hwf Hap] Ha Hold.
  apply local_success in Hrun
    as (t' & es' & d1 & Ht' & Hes' & _ & Hm & _ & _ & Hputs).
  rewrite Ht in Ht'. injection Ht' as <-.
  rewrite Hes in Hes'. injection Hes' as <-.
  specialize (Hputs (dir_names_is_name _ Hwf)).
  set (S := Path.locate (NodeJs.cwd inv) (NodeJs.skillsSource inv)) in *.
  set (T := Path.locate (NodeJs.cwd inv) t) in *.
  assert (Hwfs : wf (Dir ses) = true).
  { apply wf_Dir in Hwf as (_ & _ & Hwf). rewrite Forall_forall in Hwf.
    exact (Hwf _ (find_In _ _ _ Ha)). }
  pose proof (wf_Dir _ Hwfs) as (Hds & _ & _).
  set (keeps := fun xs : entries_t =>
                  forall k, find k ses = None -> find k xs = find k old).
  set (files := fun xs : entries_t =>
                  forall p c, lookup p (Dir ses) = Some (File c) ->
                              lookup p (Dir xs) = Some (File c)).
  set (Q' := fun x : option node =>
                exists new, x = Some (Dir new) /\ files new /\ keeps new).
  assert (H : Q' (lookup (T ++ [a]) (disk w))).
  { apply (puts_entry T (NodeJs.copied S)
             (fun d0 => lookup (S ++ [a]) d0 = Some (Dir ses))
             (fun x => exists cur, x = Some (Dir cur) /\ keeps cur)
             Q' a _ _ _ Hputs).
    - intros d0 d2 b ts x HJ _ Hw. rewrite <- HJ.
      eapply lookup_write_apart; [|exact Hw]. now apply apart_child.
    - intros d0 ts x HJ (s & Hs & Hc) Hcur. rewrite HJ in Hs.
      injection Hs as <-.
      assert (Hk : exists cur, find a ts = Some (Dir cur) /\ keeps cur).
      { destruct Hcur as [Hcur|(cur & Hcur & _ & Hkeep)]; eauto. }
      destruct Hk as (cur & Hcur' & Hkeep). rewrite Hcur' in Hc.
      pose proof (copy_files _ Hwfs _ _ Hc) as Hfiles.
      apply (copy_dir _ _ _ Hds) in Hc as (new & -> & Hnew).
      exists new. split; [reflexivity|]. split; [exact Hfiles|].
      intros k Hk. now rewrite (Hnew k Hk), (Hkeep k Hk).
    - rewrite (mkdir_p_apart _ _ _ _ (apart_child _ _ a Hap) Hm).
      now rewrite (lookup_child _ _ _ _ Hes).
    - left. split.
      + apply dir_names_In. exists ses. now apply find_In.
      + exists old. split; [|intros k _; reflexivity].
        now rewrite (mkdir_p_inside _ [a] _ _ Hm) by discriminate. }
  destruct H as (new & Hnew & Hfiles & Hkeeps). now exists new.
Qed.

End Claims.

(** ** A second run of the local variant *)

Section Again.
Import Proc Fs Installer.
Context {rt : NodeJs.Runtime}.

Lemma link_free_Dir (es : entries_t) :
  link_free (Dir es) = true -> Forall (fun e => link_free (snd e) = true) es.
Proof.
  simpl. induction es as [|[k m] es IH]; intros H; constructor;
    apply andb_true_iff in H as [Hm H]; [exact Hm|now apply IH].
Qed.

(** The loop of [copyDir] over entries whose copies are there already
    changes nothing. *)
Lemma copyDir_same (ses des : entries_t) :
  (forall k s, In (k, s) ses ->
     exists n, find k des = Some n /\
               NodeJs.copy s (Some n) = (Some n, None)) ->
  NodeJs.copyDir NodeJs.copy ses des = (des, None).
Proof.
  induction ses as [|[k s] ses IH]; intros H; simpl; [reflexivity|].
  destruct (H k s (or_introl eq_refl)) as (n & Hn & Hc).
  rewrite Hn, Hc, (put_find _ _ _ Hn).
  apply IH. intros k' s' Hin. apply H. now right.
Qed.

(** Copying a tree onto its copy changes nothing. *)
Lemma copy_again (src : node) :
  wf src = true -> link_free src = true ->
  forall dest n,
    NodeJs.copy src dest = (Some n, None) ->
    NodeJs.copy src (Some n) = (Some n, None).
Proof.
  induction src as [c0|t|ses IH] using node_induction;
    intros Hwf Hlf dest n Hc.
  - simpl in Hc. destruct dest as [[| |]|]; inversion Hc; reflexivity.
  - discriminate Hlf.
  - apply wf_Dir in Hwf as (Hd & _ & Hwfs).
    apply link_free_Dir in Hlf.
    simpl in Hc.
    assert (Hgo : exists des des', n = Dir des' /\
                    NodeJs.copyDir NodeJs.copy ses des = (des', None)).
    { destruct dest as [[| |des]|]; try discriminate;
        destruct (NodeJs.copyDir NodeJs.copy ses _) as [des' e] eqn:Hgo;
        injection Hc as <- ->; eauto. }
    destruct Hgo as (des & des' & -> & Hgo).
    destruct (copyDir_ok _ _ _ Hd Hgo) as [H1 _].
    simpl. rewrite copyDir_same; [reflexivity|].
    intros k s Hin. pose proof (In_find _ _ _ Hd Hin) as Hf.
    destruct (H1 _ _ Hf) as (m & Hm & Hcm).
    exists m. split; [exact Hm|].
    rewrite Forall_forall in IH, Hwfs, Hlf.
    exact (IH _ Hin (Hwfs _ Hin) (Hlf _ Hin) _ _ Hcm).
Qed.

Lemma write_same (p : list string) (d n : node) :
  lookup p d = Some n -> write p n d = Some d.
Proof.
  revert d. induction p as [|c r IH]; intros d H.
  - simpl in H. now injection H as ->.
  - simpl in H. destruct d as [| |es]; try discriminate.
    destruct (find c es) as [m|] eqn:Hf; [|discriminate].
    destruct r as [|c' r'].
    + simpl in H. injection H as ->. simpl. now rewrite put_find.
    + rewrite write_cons, Hf, (IH _ H) by discriminate.
      now rewrite put_find.
Qed.

Lemma apart_prefix (p q : list string) :
  apart p q -> Path.is_prefix p q = false.
Proof. now intros [H _]. Qed.

(** A call of [cpSync] whose source has its copy at the destination
    already returns and changes nothing. *)
Lemma cpSync_again (c src dest : string) (w : world) (s n : node) :
  lookup (Path.locate c src) (disk w) = Some s ->
  lookup (Path.locate c dest) (disk w) = Some n ->
  apart (Path.locate c src) (Path.locate c dest) ->
  lookup (parent (Path.locate c dest)) (disk w) <> None ->
  NodeJs.copy s (Some n) = (Some n, None) ->
  NodeJs.cpSync c src dest w = (Val tt, w).
Proof.
  intros Hs Hn Hap Hpar Hc. unfold NodeJs.cpSync.
  rewrite bind_cases. unfold get_disk at 1. cbv beta iota.
  rewrite Hs, Hn, (apart_prefix _ _ Hap), andb_false_r. cbn [andb].
  rewrite Hc, bind_cases.
  destruct (lookup (parent _) (disk w)); [|contradiction].
  unfold ret at 1. cbv beta iota.
  rewrite bind_cases. unfold get_disk at 1. cbv beta iota.
  rewrite bind_cases, (write_same _ _ _ Hn).
  destruct w; reflexivity.
Qed.

(** The loop over skills whose copies are at the destination already. *)
Lemma loop_again (inv : NodeJs.invocation) (t : string)
  (skills : list string) (n : Z) (w : world) :
  t <> "" ->
  apart (Path.locate (NodeJs.cwd inv) (NodeJs.skillsSource inv))
    (Path.locate (NodeJs.cwd inv) t) ->
  (exists ts, lookup (Path.locate (NodeJs.cwd inv) t) (disk w) = Some (Dir ts)) ->
  (forall a, In a skills ->
     Path.is_name a = true /\
     exists s x,
       lookup (Path.locate (NodeJs.cwd inv) (NodeJs.skillsSource inv) ++ [a])
         (disk w) = Some s /\
       lookup (Path.locate (NodeJs.cwd inv) t ++ [a]) (disk w) = Some x /\
       NodeJs.copy s (Some x) = (Some x, None)) ->
  exists n' w',
    foldM (NodeJs.install_skill inv t) skills n w = (Val n', w') /\
    disk w' = disk w.
Proof.
  intros Ht Hap. revert n w.
  induction skills as [|a rest IH]; intros n w HT H.
  - exists n, w. split; reflexivity.
  - destruct (H a (or_introl eq_refl)) as (Ha & s & x & Hs & Hx & Hc).
    destruct HT as [ts HT].
    assert (Hstep : NodeJs.install_skill inv t n a w
                    = (Val (NodeJs.incr n), add_out (NodeJs.progress a) w)).
    { unfold NodeJs.install_skill. rewrite bind_cases.
      rewrite (cpSync_again _ _ _ _ s x).
      - reflexivity.
      - rewrite locate_path_join by (assumption || apply resolve_nonempty).
        exact Hs.
      - rewrite locate_path_join by assumption. exact Hx.
      - rewrite !locate_path_join by (assumption || apply resolve_nonempty).
        now apply apart_app.
      - rewrite locate_path_join, parent_snoc, HT by assumption. discriminate.
      - exact Hc. }
    cbn [foldM]. rewrite bind_cases, Hstep.
    destruct (IH (NodeJs.incr n) (add_out (NodeJs.progress a) w))
      as (n' & w' & Hloop & Hdisk).
    + now exists ts.
    + intros b Hb. apply H. now right.
    + exists n', w'. split; [exact Hloop|exact Hdisk].
Qed.

(** X8.  The local variant is idempotent: a second run after a run that ended
    with status 0 ends with status 0 and leaves the file system as the
    first run left it.  (For payloads without links, whose second copy
    [fs.cpSync] treats in ways that depend on the version of Node.) *)
Theorem local_reinstall_same (inv : NodeJs.invocation) (d : node) (w : world)
  (t : string) (es : entries_t) :
  NodeJs.main inv d = (0, w) ->
  NodeJs.targetBase inv = Some t ->
  lookup (Path.locate (NodeJs.cwd inv) (NodeJs.skillsSource inv)) d
  = Some (Dir es) ->
  tidy (Local inv) t es ->
  link_free (Dir es) = true ->
  exists w', NodeJs.main inv (disk w) = (0, w') /\ disk w' = disk w.
Proof.
  intros Hrun Ht Hes [Hwf Hap] Hlf.
  apply local_success in Hrun
    as (t' & es' & d1 & Ht' & Hes' & Hne & Hm & _ & _ & Hputs).
  rewrite Ht in Ht'. injection Ht' as <-.
  rewrite Hes in Hes'. injection Hes' as <-.
  pose proof (dir_names_is_name _ Hwf) as Hnames.
  specialize (Hputs Hnames).
  assert (Htne : t <> "") by (apply (destination_nonempty (Local inv)), Ht).
  set (S := Path.locate (NodeJs.cwd inv) (NodeJs.skillsSource inv)) in *.
  set (T := Path.locate (NodeJs.cwd inv) t) in *.
  assert (HS : forall q, lookup (S ++ q) (disk w) = lookup (S ++ q) d).
  { intros q.
    assert (Hq : apart T (S ++ q))
      by (apply apart_sym; rewrite <- (app_nil_r T); now apply apart_app).
    rewrite (puts_apart _ _ _ _ _ Hputs _ Hq).
    now apply (mkdir_p_apart T). }
  destruct (puts_dir _ _ _ _ _ Hputs (mkdir_p_dir _ _ _ Hm)) as [ts HT].
  pose proof (wf_Dir _ Hwf) as (Hd & _ & Hwfs).
  pose proof (link_free_Dir _ Hlf) as Hlfs.
  rewrite Forall_forall in Hwfs, Hlfs.
  destruct (loop_again inv t (dir_names es) 0%Z
              (add_out "" (add_out ("Target: " ++ t)
                 (add_out (if NodeJs.isGlobal inv
                           then "Installing Next.js Claude skills globally..."
                           else "Installing Next.js Claude skills to project...")
                    (add_out "" (World (disk w) None [] [])))))
              Htne Hap)
    as (n' & w' & Hloop & Hdisk).
  { exists ts. exact HT. }
  { intros a Ha. split; [rewrite Forall_forall in Hnames; now apply Hnames|].
    apply dir_names_In in Ha as [ses Hin].
    pose proof (In_find _ _ _ Hd Hin) as Hf.
    assert (Hsrc : lookup (S ++ [a]) (disk w) = Some (Dir ses))
      by (rewrite HS; now rewrite (lookup_child _ _ _ _ Hes)).
    assert (Hx : exists x dest0,
               lookup (T ++ [a]) (disk w) = Some x /\
               NodeJs.copy (Dir ses) dest0 = (Some x, None)).
    { apply (puts_entry T (NodeJs.copied S)
               (fun d0 => lookup (S ++ [a]) d0 = Some (Dir ses))
               (fun _ => True)
               (fun v => exists x dest0,
                   v = Some x /\ NodeJs.copy (Dir ses) dest0 = (Some x, None))
               a _ _ _ Hputs).
      - intros d0 d2 b ts0 x HJ _ Hw. rewrite <- HJ.
        eapply lookup_write_apart; [|exact Hw]. now apply apart_child.
      - intros d0 ts0 x HJ (s & Hs & Hc) _. rewrite HJ in Hs.
        injection Hs as <-. eauto.
      - rewrite (mkdir_p_apart _ _ _ _ (apart_child _ _ a Hap) Hm).
        now rewrite (lookup_child _ _ _ _ Hes).
      - left. split; [|exact I]. apply dir_names_In. now exists ses. }
    destruct Hx as (x & dest0 & Hx & Hc).
    exists (Dir ses), x. split; [exact Hsrc|]. split; [exact Hx|].
    exact (copy_again _ (Hwfs _ Hin) (Hlfs _ Hin) _ _ Hc). }
  assert (HS0 : lookup S (disk w) = Some (Dir es)).
  { pose proof (HS []) as H0. rewrite app_nil_r in H0. now rewrite H0. }
  subst S T.
  unfold NodeJs.main, Proc.run. rewrite install_cases, Ht. simpl disk.
  rewrite HS0.
  destruct (dir_names es) as [|a names] eqn:Hn; [contradiction|].
  rewrite <- Hn in *. clear Hn.
  rewrite (mkdir_p_existing _ _ _ HT).
  unfold NodeJs.install_all, NodeJs.console_log.
  repeat (rewrite bind_print; cbv beta). rewrite bind_cases.
  change (set_disk (disk w) (World (disk w) None [] []))
    with (World (disk w) None [] []).
  rewrite Hloop.
  repeat (rewrite bind_print; cbv beta). unfold print.
  eexists. split; [reflexivity|]. simpl. exact Hdisk.
Qed.

End Again.

(** * The claims at work *)

Section Instances.
Import Proc Fs Installer Examples MoreExamples.

(** ** Where the claims as they are stated fail *)


(** C3 as stated fails: the local variant, run over an older [alpha],
    leaves the file that only the older [alpha] had. *)
Lemma replacement_counterexample :
  ~ replacement_as_stated (Local npx) used.
Proof.
  intros H.
  assert (Hrun : run (Local npx) used = (0, snd (run (Local npx) used)))
    by (vm_compute; reflexivity).
  assert (Ht : destination (Local npx) = Some project_skills)
    by (vm_compute; reflexivity).
  assert (Hp : payload (Local npx) used = Some shipped)
    by (vm_compute; reflexivity).
  specialize (H _ _ _ "alpha" [("SKILL.md", File "alpha, as shipped")]
                [("SKILL.md", File "alpha, older"); ("NOTES.md", File "stale")]
                Hrun Ht Hp eq_refl).
  vm_compute in H. specialize (H eq_refl). discriminate H.
Qed.

(** C4.  The remote variant run a second time puts a second copy of every
    skill inside the first: the destination is not what the first run
    left. *)
Lemma reinstall_nests :
  ~ idempotence_as_stated (Remote (curl snapshot)) fresh /\
  lookup (root (Remote (curl snapshot)) project_skills ++ ["alpha"; "alpha"])
    (disk (snd (run (Remote (curl snapshot)) fresh)))
  = None /\
  lookup (root (Remote (curl snapshot)) project_skills ++ ["alpha"; "alpha"])
    (disk (snd (run (Remote (curl snapshot))
                  (disk (snd (run (Remote (curl snapshot)) fresh))))))
  = Some (Dir [("SKILL.md", File "alpha, as shipped")]).
Proof.
  split; [|split; vm_compute; reflexivity].
  intros H. specialize (H project_skills ["alpha"; "alpha"] eq_refl).
  vm_compute in H. discriminate H.
Qed.

(** The local variant, on the same project, leaves after a second run
    what it left after the first. *)
Lemma reinstall_local_example : idempotence_as_stated (Local npx) fresh.
Proof.
  intros t q [= <-]. f_equal.
Qed.


(** C8.  The remote variant, on a snapshot with two skill directories
    of which one has a name that begins with a dot, installs and counts
    one: the summary of the run, which ends with status 0, says 1, and
    the payload source has 2 directories. *)
Lemma hidden_skill_not_counted :
  ~ report_as_stated (Remote (curl snapshot_dot)) fresh /\
  fst (run (Remote (curl snapshot_dot)) fresh) = 0 /\
  payload (Remote (curl snapshot_dot)) fresh = Some drafted /\
  length (dir_names drafted) = 2 /\
  out (snd (run (Remote (curl snapshot_dot)) fresh))
  = [""; "Cloning Next.js Claude skills...";
     "Installing to project at /home/u/proj/.claude/skills"; "";
     "  + alpha"; ""; "Done! 1 skills installed."; "";
     "Skills are auto-activated by Claude Code based on your prompts.";
     "No additional configuration needed."; ""].
Proof.
  split; [|repeat split; vm_compute; reflexivity].
  intros H.
  assert (Hrun : run (Remote (curl snapshot_dot)) fresh
                 = (0, snd (run (Remote (curl snapshot_dot)) fresh)))
    by (vm_compute; reflexivity).
  specialize (H _ drafted Hrun eq_refl). vm_compute in H.
  repeat (destruct H as [H|H]; [discriminate H|]). exact H.
Qed.

(** The local variant, on a package with the same skill directories,
    installs and counts both. *)
Lemma report_local_example :
  report_as_stated (Local npx) fresh_drafted /\
  fst (run (Local npx) fresh_drafted) = 0 /\
  In "Done! 2 skills installed." (out (snd (run (Local npx) fresh_drafted))).
Proof.
  split; [|split; [vm_compute; reflexivity|vm_compute; tauto]].
  intros w es Hrun Hp.
  assert (E : w = snd (run (Local npx) fresh_drafted)) by now rewrite Hrun.
  subst w. injection Hp as <-. vm_compute. tauto.
Qed.

(** C1.  The remote variant, run without [--global] in a directory whose
    name ends in a newline, does not install under that directory:
    [$(pwd)] gives the name without the newline, and the destination root
    is [.claude/skills] under a directory of that other name. *)
Lemma destination_misses_working_directory :
  ~ selection_as_stated (Remote curl_odd) /\
  global (Remote curl_odd) = false /\
  root (Remote curl_odd) (cwd (Remote curl_odd))
  = ["home"; "u"; "proj" ++ String Str.newline ""] /\
  destination (Remote curl_odd) = Some "/home/u/proj/.claude/skills" /\
  root (Remote curl_odd) "/home/u/proj/.claude/skills"
  = ["home"; "u"; "proj"; ".claude"; "skills"].
Proof.
  split; [|repeat split; vm_compute; reflexivity].
  intros H.
  specialize (H "/home/u/proj/.claude/skills" odd_project eq_refl eq_refl).
  vm_compute in H. discriminate H.
Qed.

(** The local variant, run in the same directory, installs under it. *)
Lemma selection_local_example :
  selection_as_stated (Local npx_odd) /\
  root (Local npx_odd) (cwd (Local npx_odd))
  = ["home"; "u"; "proj" ++ String Str.newline ""] /\
  exists t, destination (Local npx_odd) = Some t /\
            root (Local npx_odd) t
            = ["home"; "u"; "proj" ++ String Str.newline ""; ".claude"; "skills"].
Proof.
  split; [|split; [vm_compute; reflexivity|]].
  - intros t base Ht Hb. vm_compute in Ht, Hb.
    injection Ht as <-. injection Hb as <-. vm_compute. reflexivity.
  - eexists. split; vm_compute; reflexivity.
Qed.

(** ** The theorems on the examples *)

Lemma global_without_home_fails_witness :
  NodeJs.targetBase npx_global_homeless = None /\
  NodeJs.main npx_global_homeless fresh
  = (1, World fresh None [] ["Uncaught ERR_INVALID_ARG_TYPE"]).
Proof.
  apply global_without_home_fails; [simpl; auto|reflexivity|reflexivity].
Defined.

Lemma missing_payload_fails_witness :
  (1 <> 0 /\ err (snd (run (Local npx) broken)) <> [] /\
   disk (snd (run (Local npx) broken)) = broken) /\
  (128 <> 0 /\ err (snd (run (Remote curl_offline) fresh)) <> [] /\
   disk (snd (run (Remote curl_offline) fresh)) = fresh).
Proof.
  split.
  - apply (missing_payload_fails (Local npx) broken);
      [vm_compute; reflexivity|vm_compute; reflexivity].
  - apply (missing_payload_fails (Remote curl_offline) fresh);
      [eexists; reflexivity|vm_compute; reflexivity].
Defined.

Lemma temporary_directory_removed_witness :
  tmp (snd (Bash.main (curl snapshot) fresh)) = None /\
  tmp (snd (Bash.main curl_offline fresh)) = None.
Proof.
  split.
  - apply (temporary_directory_removed (curl snapshot) fresh 0).
    vm_compute; reflexivity.
  - apply (temporary_directory_removed curl_offline fresh 128).
    vm_compute; reflexivity.
Defined.


Lemma non_directories_ignored_witness :
  (~ In "README.md" (dir_names shipped) /\ ~ In "latest" (dir_names shipped) /\
   lookup (Path.locate (NodeJs.cwd npx) project_skills ++ ["README.md"])
     (disk (snd (NodeJs.main npx used))) = None) /\
  (1 <> 0 /\ disk (snd (NodeJs.main npx hollow)) = hollow).
Proof.
  split.
  - assert (Hes : lookup (Path.locate (NodeJs.cwd npx) (NodeJs.skillsSource npx))
                    used = Some (Dir shipped)) by (vm_compute; reflexivity).
    assert (Hrun : NodeJs.main npx used = (0, snd (NodeJs.main npx used)))
      by (vm_compute; reflexivity).
    destruct (non_directories_ignored npx used shipped 0 _ Hes Hrun)
      as (_ & _ & H).
    destruct (H eq_refl) as (t & Ht & _ & Hframe).
    assert (E : t = project_skills)
      by (vm_compute in Ht; injection Ht as <-; reflexivity).
    subst t.
    assert (Hn : ~ In "README.md" (dir_names shipped))
      by (vm_compute; intros [E|[E|[]]]; discriminate E).
    split; [exact Hn|]. split;
      [vm_compute; intros [E|[E|[]]]; discriminate E|].
    rewrite (Hframe (ltac:(repeat constructor)) "README.md" [] Hn).
    vm_compute. reflexivity.
  - assert (Hes : lookup (Path.locate (NodeJs.cwd npx) (NodeJs.skillsSource npx))
                    hollow = Some (Dir [("README.md", File "not a skill")]))
      by (vm_compute; reflexivity).
    assert (Hrun : NodeJs.main npx hollow = (1, snd (NodeJs.main npx hollow)))
      by (vm_compute; reflexivity).
    destruct (non_directories_ignored npx hollow _ 1 _ Hes Hrun)
      as (_ & H & _).
    exact (H eq_refl).
Defined.


Lemma reinstall_overlays_witness :
  exists new,
    lookup (Path.locate (NodeJs.cwd npx) project_skills ++ ["alpha"])
      (disk (snd (NodeJs.main npx used))) = Some (Dir new) /\
    (forall p c,
       lookup p (Dir [("SKILL.md", File "alpha, as shipped")]) = Some (File c) ->
       lookup p (Dir new) = Some (File c)) /\
    (forall k,
       find k [("SKILL.md", File "alpha, as shipped")] = None ->
       find k new
       = find k [("SKILL.md", File "alpha, older");
                 ("NOTES.md", File "stale")]).
Proof.
  apply (reinstall_overlays npx used _ project_skills shipped).
  - vm_compute; reflexivity.
  - vm_compute; reflexivity.
  - vm_compute; reflexivity.
  - split; [vm_compute; reflexivity|split; vm_compute; reflexivity].
  - reflexivity.
  - vm_compute; reflexivity.
Defined.

End Instances.

(** * Further properties *)

(** ** What the local variant leaves alone *)

Section JsEffects.
Import Proc Fs NodeJs Effects.
Context {rt : NodeJs.Runtime}.

Lemma only_at_refl (p : list string) (d : node) : only_at p d d.
Proof. intros q _. reflexivity. Qed.

Lemma only_at_below (p r : list string) (d d' : node) :
  only_at (p ++ r) d d' -> only_at p d d'.
Proof.
  intros H q Hq. apply H. rewrite <- (app_nil_r q). now apply apart_app.
Qed.

Lemma only_at_write (p : list string) (x d d' : node) :
  write p x d = Some d' -> only_at p d d'.
Proof. intros Hw q Hq. eapply lookup_write_apart; eassumption. Qed.

Lemma apart_siblings (p q : list string) (a k : string) :
  a <> k -> apart (p ++ [a]) (p ++ k :: q).
Proof.
  intros Hne. induction p as [|c p IH]; unfold apart; simpl.
  - destruct (String.eqb_spec a k) as [E|_]; [contradiction|].
    destruct (String.eqb_spec k a) as [E|_]; [now subst|]. now split.
  - rewrite String.eqb_refl. exact IH.
Qed.

(** Closes the case of a step that ends the process, the file system
    being [d1] or one write away from it. *)
Ltac raised d1 :=
  intros [= <- <-]; simpl;
  split; [reflexivity|];
  split; [reflexivity|];
  split; [split; [first [discriminate|apply cp_failure_nonzero]
                 |eexists; reflexivity]|];
  exists d1; split; solve [eauto].

(** What a call of [cpSync] does, whether it returns or fails: it prints
    nothing on standard output, fails with one message, and writes to
    the file system at the destination only (after making the directory
    the destination is in, when that is not there). *)
Lemma cpSync_effect (c src dest : string) (w w' : world) (r : res unit) :
  cpSync c src dest w = (r, w') ->
  out w' = out w /\ tmp w' = tmp w /\
  match r with
  | Val _ => err w' = err w
  | Halt st => st <> 0 /\ exists msg, err w' = (err w ++ [msg])%list
  end /\
  exists d1,
    (d1 = disk w \/
     (lookup (parent (Path.locate c dest)) (disk w) = None /\
      mkdir_p (parent (Path.locate c dest)) (disk w) = Some d1)) /\
    (disk w' = d1 \/ exists n, write (Path.locate c dest) n d1 = Some (disk w')).
Proof.
  unfold cpSync, bind at 1, get_disk.
  destruct (lookup (Path.locate c src) (disk w)) as [s|] eqn:Hs;
    [|raised (disk w)].
  destruct (match lookup (Path.locate c dest) (disk w) with
            | Some _ => _ | None => false end); [raised (disk w)|].
  destruct (is_dir s && _); [raised (disk w)|].
  destruct (copy_some s (lookup (Path.locate c dest) (disk w)))
    as (new & e & Hc).
  rewrite Hc. unfold bind at 1.
  destruct (lookup (parent (Path.locate c dest)) (disk w)) as [par|] eqn:Hp.
  - unfold ret at 1, bind at 1. simpl.
    unfold bind at 1.
    destruct (write (Path.locate c dest) new (disk w)) as [d2|] eqn:Hw;
      [|raised (disk w)].
    simpl. destruct e as [code|]; [raised (disk w)|].
    intros [= <- <-]. simpl. repeat split. exists (disk w). split; solve [eauto].
  - destruct (mkdir_p (parent (Path.locate c dest)) (disk w)) as [d1|] eqn:Hm;
      [|raised (disk w)].
    simpl. unfold bind at 1. simpl.
    destruct (write (Path.locate c dest) new d1) as [d2|] eqn:Hw;
      [|raised d1].
    simpl. destruct e as [code|]; [raised d1|].
    intros [= <- <-]. simpl. repeat split. exists d1. split; solve [eauto].
Qed.

Section Loop.
Variable inv : invocation.
Variable t : string.
Hypothesis Ht : t <> "".

Let T := Path.locate (cwd inv) t.
Let S := Path.locate (cwd inv) (skillsSource inv).

(** A round of the loop, whether it goes on or ends the run: it writes at
    the entry of the skill only, and the destination root stays a
    directory. *)
Lemma install_skill_effect (n : Z) (a : string) (w w' : world) (r : res Z) :
  install_skill inv t n a w = (r, w') ->
  match r with
  | Val _ => True
  | Halt st =>
      st <> 0 /\ out w' = out w /\ exists msg, err w' = (err w ++ [msg])%list
  end /\
  (Path.is_name a = true ->
   (exists ts, lookup T (disk w) = Some (Dir ts)) ->
   only_at (T ++ [a]) (disk w) (disk w') /\
   exists ts', lookup T (disk w') = Some (Dir ts')).
Proof.
  unfold install_skill. rewrite bind_cases.
  destruct (cpSync _ _ _ w) as [r0 w0] eqn:Hcp.
  apply cpSync_effect in Hcp as (Hout & _ & Hr & d1 & Hd1 & Hw0).
  assert (Hdisk : Path.is_name a = true ->
                  (exists ts, lookup T (disk w) = Some (Dir ts)) ->
                  only_at (T ++ [a]) (disk w) (disk w0) /\
                  exists ts', lookup T (disk w0) = Some (Dir ts')).
  { intros Ha [ts HT].
    rewrite locate_path_join in Hd1, Hw0 by assumption.
    fold T in Hd1, Hw0. rewrite parent_snoc, HT in Hd1.
    destruct Hd1 as [->|[Hd1 _]]; [|discriminate Hd1].
    destruct Hw0 as [->|[x Hw]].
    - split; [apply only_at_refl|now exists ts].
    - split; [now apply (only_at_write _ x)|].
      rewrite (write_child _ _ _ _ _ HT) in Hw.
      exists (put a x ts). rewrite <- (app_nil_r T).
      now rewrite (lookup_write _ _ _ _ _ Hw). }
  destruct r0 as [[]|st].
  - intros [= <- <-]. split; [exact I|exact Hdisk].
  - intros [= <- <-]. destruct Hr as [Hst Herr]. auto.
Qed.

(** The loop over the skills when it ends the run: the skills before the
    one that failed were installed and have their progress lines, the
    failed round wrote at the entry of its skill only, and there is one
    message on standard error. *)
Lemma loop_effect (skills : list string) (n : Z) (w w' : world) (st : nat) :
  foldM (install_skill inv t) skills n w = (Halt st, w') ->
  st <> 0 /\
  exists done a rest msg,
    skills = (done ++ a :: rest)%list /\
    out w' = (out w ++ map progress done)%list /\
    err w' = (err w ++ [msg])%list /\
    (Forall (fun k => Path.is_name k = true) skills ->
     (exists ts, lookup T (disk w) = Some (Dir ts)) ->
     exists dk,
       puts T (copied S) done (disk w) dk /\
       only_at (T ++ [a]) dk (disk w')).
Proof.
  revert n w. induction skills as [|a rest IH]; intros n w; simpl.
  - discriminate.
  - rewrite bind_cases.
    destruct (install_skill inv t n a w) as [r0 w0] eqn:Hstep.
    pose proof (install_skill_effect _ _ _ _ _ Hstep) as [Hr Heff].
    destruct r0 as [n0|st0].
    + apply (install_skill_cases inv t Ht) in Hstep
        as (_ & _ & Hout & Herr & Hdisk).
      intros Hrest. apply IH in Hrest
        as (Hst & done & b & rest' & msg & -> & Hout' & Herr' & Hdisk').
      split; [exact Hst|].
      exists (a :: done), b, rest', msg.
      split; [reflexivity|]. split.
      { rewrite Hout', Hout, <- app_assoc. reflexivity. }
      split; [congruence|].
      intros Hnames [ts HT]. inversion Hnames as [|? ? Ha Hrest'']; subst.
      destruct (Hdisk Ha ts HT) as (x & Hx & Hw).
      destruct (Heff Ha (ex_intro _ ts HT)) as [_ HT0].
      destruct (Hdisk' Hrest'' HT0) as (dk & Hputs & Honly).
      exists dk. split; [|exact Honly].
      econstructor; eassumption.
    + intros [= <- <-]. destruct Hr as (Hst & Hout & msg & Herr).
      split; [exact Hst|].
      exists [], a, rest, msg.
      split; [reflexivity|]. split; [now rewrite app_nil_r|].
      split; [exact Herr|].
      intros Hnames HT. inversion Hnames as [|? ? Ha _]; subst.
      exists (disk w). split; [constructor|].
      now apply Heff.
Qed.

End Loop.

(** A run of the local variant that ends with a status that is not 0:
    there is one message on standard error; either the file system is as
    it was and nothing was printed, or the run ended in the loop, after
    the skills before the one that failed were installed. *)
Lemma local_failure (inv : invocation) (d : node) (st : nat) (w : world) :
  main inv d = (st, w) -> st <> 0 ->
  (exists msg, err w = [msg]) /\
  ((disk w = d /\ out w = []) \/
   exists t es d1 done a rest,
     targetBase inv = Some t /\
     lookup (Path.locate (cwd inv) (skillsSource inv)) d = Some (Dir es) /\
     mkdir_p (Path.locate (cwd inv) t) d = Some d1 /\
     dir_names es = (done ++ a :: rest)%list /\
     out w = (banner inv t ++ map progress done)%list /\
     (Forall (fun k => Path.is_name k = true) (dir_names es) ->
      exists dk,
        puts (Path.locate (cwd inv) t)
          (copied (Path.locate (cwd inv) (skillsSource inv))) done d1 dk /\
        only_at (Path.locate (cwd inv) t ++ [a]) dk (disk w))).
Proof.
  unfold main, Proc.run. rewrite install_cases. simpl disk.
  destruct (targetBase inv) as [t|] eqn:Ht;
    [|intros [= <- <-] _; simpl; eauto 10].
  destruct (lookup _ d) as [[c|l|es]|] eqn:Hes;
    try (intros [= <- <-] _; simpl; now eauto 10).
  destruct (dir_names es) as [|k ks] eqn:Hn;
    [intros [= <- <-] _; simpl; now eauto 10|].
  rewrite <- Hn.
  destruct (mkdir_p _ d) as [d1|] eqn:Hm;
    [|intros [= <- <-] _; simpl; now eauto 10].
  assert (Hne : t <> "")
    by (apply (destination_nonempty (Installer.Local inv)), Ht).
  unfold install_all, console_log.
  repeat (rewrite bind_print; cbv beta). rewrite bind_cases.
  destruct (foldM _ (dir_names es) 0%Z _) as [r w0] eqn:Hloop.
  destruct r as [n|st0].
  - repeat (rewrite bind_print; cbv beta). unfold print.
    intros [= <- <-] Hst. now contradiction Hst.
  - apply (loop_effect inv t Hne) in Hloop
      as (_ & done & a & rest & msg & Hsk & Hout & Herr & Hdisk).
    intros [= <- <-] _.
    split; [exists msg; rewrite Herr; reflexivity|]. right.
    exists t, es, d1, done, a, rest.
    do 4 (split; [first [reflexivity|assumption]|]).
    split; [rewrite Hout; reflexivity|].
    intros Hnames. apply Hdisk; [exact Hnames|].
    simpl. now apply (mkdir_p_dir _ d).
Qed.

End JsEffects.

Section ShEffects.
Import Proc Fs Bash Effects.
Context {lc : Bash.Locale}.

(** What a call of [cp -r] does, whether it succeeds or not: it prints
    nothing; it writes, if at all, at the destination or, when a
    directory is there, at the entry of the source's name inside it; when
    it succeeds the copy of the source directory is there. *)
Lemma cp_r_effect (fl : string -> option node) (c : string)
  (src : list string) (dest : string) (w w' : world) (r : res unit) :
  cp_r fl c src dest w = (r, w') ->
  out w' = out w /\ tmp w' = tmp w /\
  match r with
  | Val _ =>
      err w' = err w /\
      exists m s ses new,
        tmp w = Some m /\ lookup src m = Some s /\
        stat fl s = Some (Dir ses) /\
        copy (Dir ses)
          (lookup (match lookup (Path.locate c dest) (disk w) with
                   | Some (Dir _) => (Path.locate c dest ++ [basename src])%list
                   | _ => Path.locate c dest
                   end) (disk w)) = (Some new, true) /\
        write (match lookup (Path.locate c dest) (disk w) with
               | Some (Dir _) => (Path.locate c dest ++ [basename src])%list
               | _ => Path.locate c dest
               end) new (disk w) = Some (disk w')
  | Halt st =>
      st = 1 /\ (exists msg, err w' = (err w ++ [msg])%list) /\
      (disk w' = disk w \/
       exists n,
         write (match lookup (Path.locate c dest) (disk w) with
                | Some (Dir _) => (Path.locate c dest ++ [basename src])%list
                | _ => Path.locate c dest
                end) n (disk w) = Some (disk w'))
  end.
Proof.
  unfold cp_r. rewrite bind_cases. unfold get_tmp at 1.
  rewrite bind_cases. unfold get_disk at 1.
  destruct (tmp w) as [m|] eqn:Hm;
    [|intros [= <- <-]; simpl; rewrite Hm; now eauto 10].
  destruct (lookup src m) as [s|] eqn:Hs;
    [|intros [= <- <-]; simpl; rewrite Hm; now eauto 10].
  destruct (stat fl s) as [[| |ses]|] eqn:Hst;
    try (intros [= <- <-]; simpl; rewrite Hm; now eauto 10).
  set (dp' := match lookup (Path.locate c dest) (disk w) with
              | Some (Dir _) => (Path.locate c dest ++ [basename src])%list
              | _ => Path.locate c dest
              end).
  destruct (sh_copy_some (Dir ses) (lookup dp' (disk w))) as (new & ok & Hc).
  rewrite Hc, bind_cases.
  destruct (write dp' new (disk w)) as [d2|] eqn:Hw;
    [|intros [= <- <-]; simpl; rewrite Hm; now eauto 10].
  simpl. destruct ok; intros [= <- <-]; simpl; rewrite Hm.
  - do 3 (split; [reflexivity|]). exists m, s, ses, new. now auto.
  - do 3 (split; [reflexivity|]). split; [now eexists|]. right. now exists new.
Qed.

Section Loop.
Variable inv : invocation.
Variable t : string.
Hypothesis Ht : t <> "".

Let T := Path.locate (pwd inv) t.

(** A round of the loop on the skill directory called [a].  When it goes
    on, and [a] is a file name as [basename] prints it: the copy of the
    source has landed at the entry [a] of the destination root, inside
    the directory that was there if there was one.  When it ends the run:
    it wrote at that entry only. *)
Lemma sh_install_skill_effect (n : Z) (a : string) (w w' : world)
  (r : res Z) :
  install_skill inv t n ["repo"; "skills"; a] w = (r, w') ->
  match r with
  | Val _ =>
      Path.is_name a = true -> Str.strip_newlines a = a ->
      forall ts, lookup T (disk w) = Some (Dir ts) ->
      exists m x, tmp w = Some m /\
                  landed (follow inv) m a (disk w) ts x /\
                  write T (Dir (put a x ts)) (disk w) = Some (disk w')
  | Halt st =>
      st = 1 /\ out w' = out w /\
      (exists msg, err w' = (err w ++ [msg])%list) /\
      (Path.is_name (Str.strip_newlines a) = true ->
       (exists ts, lookup T (disk w) = Some (Dir ts)) ->
       only_at (T ++ [Str.strip_newlines a]) (disk w) (disk w') /\
       exists ts', lookup T (disk w') = Some (Dir ts'))
  end.
Proof.
  unfold install_skill. rewrite bind_cases.
  destruct (cp_r _ _ _ _ w) as [r0 w0] eqn:Hcp.
  apply cp_r_effect in Hcp as (Hout & Htmp & Hr).
  change (basename ["repo"; "skills"; a]) with a in *.
  destruct r0 as [[]|st].
  - intros [= <- <-]. intros Ha Hsn ts HT.
    destruct Hr as (Herr & m & s & ses & new & Hm & Hs & Hst & Hc & Hw).
    rewrite Hsn in Hc, Hw.
    rewrite locate_child in Hc, Hw by assumption. fold T in Hc, Hw.
    rewrite (lookup_child _ _ _ _ HT) in Hc, Hw.
    assert (Hsrc : source (follow inv) m a = Some (Dir ses))
      by (unfold source; now rewrite Hs).
    exists m. cbn [disk add_out].
    destruct (find a ts) as [[c|l|inner]|] eqn:Hf.
    + exists new. split; [exact Hm|]. split.
      * exists ses. split; [exact Hsrc|]. rewrite Hf.
        now rewrite (lookup_child _ _ _ _ HT), Hf in Hc.
      * now rewrite <- (write_child _ _ _ _ _ HT).
    + exists new. split; [exact Hm|]. split.
      * exists ses. split; [exact Hsrc|]. rewrite Hf.
        now rewrite (lookup_child _ _ _ _ HT), Hf in Hc.
      * now rewrite <- (write_child _ _ _ _ _ HT).
    + assert (Hin : lookup (T ++ [a]) (disk w) = Some (Dir inner))
        by now rewrite (lookup_child _ _ _ _ HT).
      rewrite (lookup_child _ _ _ _ Hin) in Hc.
      exists (Dir (put a new inner)). split; [exact Hm|]. split.
      * exists ses. split; [exact Hsrc|]. rewrite Hf. now exists new.
      * rewrite <- (write_child _ _ _ _ _ HT).
        now rewrite <- (write_child (T ++ [a]) a new (disk w) inner).
    + exists new. split; [exact Hm|]. split.
      * exists ses. split; [exact Hsrc|]. rewrite Hf.
        now rewrite (lookup_child _ _ _ _ HT), Hf in Hc.
      * now rewrite <- (write_child _ _ _ _ _ HT).
  - intros [= <- <-]. destruct Hr as (-> & Herr & Hw).
    do 3 (split; [assumption || reflexivity|]).
    intros Ha [ts HT].
    set (sn := Str.strip_newlines a) in *.
    rewrite locate_child in Hw by assumption. fold T in Hw.
    destruct Hw as [->|[x Hw]];
      [split; [apply only_at_refl|now exists ts]|].
    rewrite (lookup_child _ _ _ _ HT) in Hw.
    destruct (find sn ts) as [[c|l|inner]|] eqn:Hf.
    + split; [now apply (only_at_write _ x)|].
      rewrite (write_child _ _ _ _ _ HT) in Hw.
      exists (put sn x ts). rewrite <- (app_nil_r T).
      now rewrite (lookup_write _ _ _ _ _ Hw).
    + split; [now apply (only_at_write _ x)|].
      rewrite (write_child _ _ _ _ _ HT) in Hw.
      exists (put sn x ts). rewrite <- (app_nil_r T).
      now rewrite (lookup_write _ _ _ _ _ Hw).
    + assert (Hin : lookup (T ++ [sn]) (disk w) = Some (Dir inner))
        by now rewrite (lookup_child _ _ _ _ HT).
      split.
      * apply (only_at_below _ [a]). now apply (only_at_write _ x).
      * rewrite (write_child _ _ _ _ _ Hin), (write_child _ _ _ _ _ HT) in Hw.
        exists (put sn (Dir (put a x inner)) ts). rewrite <- (app_nil_r T).
        now rewrite (lookup_write _ _ _ _ _ Hw).
    + split; [now apply (only_at_write _ x)|].
      rewrite (write_child _ _ _ _ _ HT) in Hw.
      exists (put sn x ts). rewrite <- (app_nil_r T).
      now rewrite (lookup_write _ _ _ _ _ Hw).
Qed.

(** The loop over the skill directories called [names], when it goes
    through: a run of writes into the destination root, each the landing
    of a copy. *)
Lemma sh_loop_landed (names : list string) (n n' : Z) (w w' : world)
  (m : node) :
  foldM (install_skill inv t)
    (map (fun name => ["repo"; "skills"; name]) names) n w = (Val n', w') ->
  Forall (fun a => Path.is_name a = true /\ Str.strip_newlines a = a) names ->
  tmp w = Some m ->
  (exists ts, lookup T (disk w) = Some (Dir ts)) ->
  puts T (landed (follow inv) m) names (disk w) (disk w').
Proof.
  revert n w. induction names as [|a rest IH]; intros n w; simpl.
  - intros [= <- <-] _ _ _. constructor.
  - rewrite bind_cases.
    destruct (install_skill inv t n _ w) as [r0 w0] eqn:Hstep.
    pose proof (sh_install_skill_effect _ _ _ _ _ Hstep) as Heff.
    apply (sh_install_skill_cases inv t Ht) in Hstep as (Htmp & _).
    destruct r0 as [n0|st]; [|discriminate].
    intros Hrest Hnames Hm [ts HT].
    inversion Hnames as [|? ? [Ha Hsn] Hnames']; subst.
    destruct (Heff Ha Hsn ts HT) as (m' & x & Hm' & Hx & Hw).
    rewrite Hm in Hm'. injection Hm' as <-.
    apply (puts_cons _ _ a rest (disk w) (disk w0) (disk w') ts x HT Hx Hw).
    apply (IH _ _ Hrest Hnames'); [congruence|].
    exists (put a x ts). rewrite <- (app_nil_r T).
    now rewrite (lookup_write _ _ _ _ _ Hw).
Qed.

(** The loop when it ends the run: the skills before the one that failed
    were installed and have their progress lines, and the failed round
    wrote at the entry of its skill only. *)
Lemma sh_loop_effect (names : list string) (n : Z) (w w' : world)
  (st : nat) :
  foldM (install_skill inv t)
    (map (fun name => ["repo"; "skills"; name]) names) n w = (Halt st, w') ->
  st = 1 /\
  exists done a rest,
    names = (done ++ a :: rest)%list /\
    out w'
    = (out w ++ map (fun k => progress (Str.strip_newlines k)) done)%list /\
    (exists msg, err w' = (err w ++ [msg])%list) /\
    (Forall (fun k => Path.is_name (Str.strip_newlines k) = true) names ->
     (exists ts, lookup T (disk w) = Some (Dir ts)) ->
     exists dk,
       puts T placed (map Str.strip_newlines done) (disk w) dk /\
       only_at (T ++ [Str.strip_newlines a]) dk (disk w')).
Proof.
  revert n w. induction names as [|a rest IH]; intros n w; simpl.
  - discriminate.
  - rewrite bind_cases.
    destruct (install_skill inv t n _ w) as [r0 w0] eqn:Hstep.
    pose proof (sh_install_skill_effect _ _ _ _ _ Hstep) as Heff.
    apply (sh_install_skill_cases inv t Ht) in Hstep as (_ & Hr).
    destruct r0 as [n0|st0].
    + destruct Hr as (_ & Hout & Herr & Hdisk).
      intros Hrest. apply IH in Hrest
        as (-> & done & b & rest' & -> & Hout' & [msg Herr'] & Hdisk').
      split; [reflexivity|].
      exists (a :: done), b, rest'.
      split; [reflexivity|]. split.
      { rewrite Hout', Hout, <- app_assoc. reflexivity. }
      split; [exists msg; congruence|].
      intros Hnames [ts HT]. inversion Hnames as [|? ? Ha Hrest'']; subst.
      destruct (Hdisk Ha ts HT) as (x & Hx & Hw).
      assert (HT0 : exists ts0, lookup T (disk w0) = Some (Dir ts0)).
      { exists (put (Str.strip_newlines a) x ts). rewrite <- (app_nil_r T).
        now rewrite (lookup_write _ _ _ _ _ Hw). }
      destruct (Hdisk' Hrest'' HT0) as (dk & Hputs & Honly).
      exists dk. split; [|exact Honly].
      simpl. econstructor; eassumption.
    + intros [= <- <-]. destruct Heff as (-> & Hout & Herr & Hdisk).
      split; [reflexivity|].
      exists [], a, rest.
      split; [reflexivity|]. split; [now rewrite app_nil_r|].
      split; [exact Herr|].
      intros Hnames HT. inversion Hnames as [|? ? Ha _]; subst.
      exists (disk w). split; [constructor|].
      now apply Hdisk.
Qed.

End Loop.

End ShEffects.

Section ShRuns.
Import Proc Fs Bash Effects.
Context {lc : Bash.Locale}.

(** The script after [mkdir -p], whether it goes through or not. *)
Lemma sh_install_all_effect (inv : invocation) (t : string) (w w' : world)
  (r : res unit) :
  t <> "" ->
  install_all inv t w = (r, w') ->
  match r with
  | Val _ =>
      forall m es,
        tmp w = Some m -> lookup ["repo"; "skills"] m = Some (Dir es) ->
        Forall (fun a => Path.is_name a = true /\ Str.strip_newlines a = a)
          (matched (follow inv) es) ->
        (exists ts, lookup (Path.locate (pwd inv) t) (disk w)
                    = Some (Dir ts)) ->
        puts (Path.locate (pwd inv) t) (landed (follow inv) m)
          (matched (follow inv) es) (disk w) (disk w')
  | Halt st =>
      st = 1 /\ (exists msg, err w' = (err w ++ [msg])%list) /\
      let found := match tmp w with
                   | Some m =>
                       match lookup ["repo"; "skills"] m with
                       | Some (Dir es) => matched (follow inv) es
                       | _ => []
                       end
                   | None => []
                   end in
      let lines := [if GLOBAL inv
                    then "Installing globally to " ++ t
                    else "Installing to project at " ++ t; ""] in
      (found = [] /\ disk w' = disk w /\ out w' = (out w ++ lines)%list) \/
      exists done a rest,
        found = (done ++ a :: rest)%list /\
        out w'
        = (out w ++ lines
           ++ map (fun k => progress (Str.strip_newlines k)) done)%list /\
        (Forall (fun k => Path.is_name (Str.strip_newlines k) = true) found ->
         (exists ts, lookup (Path.locate (pwd inv) t) (disk w)
                     = Some (Dir ts)) ->
         exists dk,
           puts (Path.locate (pwd inv) t) placed
             (map Str.strip_newlines done) (disk w) dk /\
           only_at (Path.locate (pwd inv) t ++ [Str.strip_newlines a])
             dk (disk w'))
  end.
Proof.
  intros Ht. unfold install_all, echo.
  assert (Hb : forall s1 s2 (k : unit -> M unit) w0,
             bind (if GLOBAL inv then print s1 else print s2) k w0
             = k tt (add_out (if GLOBAL inv then s1 else s2) w0))
    by (intros; destruct (GLOBAL inv); reflexivity).
  rewrite Hb. repeat (rewrite bind_print; cbv beta).
  rewrite bind_cases. unfold get_tmp at 1. cbv beta iota.
  rewrite bind_cases. unfold glob.
  change (tmp (add_out "" (add_out _ w))) with (tmp w).
  destruct (match tmp w with Some m => _ | None => [] end)
    as [|a found] eqn:Hfound.
  - cbn [foldM]. rewrite bind_cases, unmatched_fails by exact Hfound.
    intros [= <- <-]. split; [reflexivity|]. split; [now eexists|].
    left. cbn [disk out add_err add_out]. rewrite <- app_assoc. auto.
  - set (names := a :: found) in *.
    assert (Hne : names <> []) by discriminate. clearbody names.
    destruct (foldM _ (map _ names) 0%Z _) as [r0 w0] eqn:Hloop.
    destruct r0 as [n|st].
    + repeat (rewrite bind_print; cbv beta). unfold print.
      intros [= <- <-]. intros m es Hm Hes Hnames HT.
      rewrite Hm, Hes in Hfound. subst names.
      exact (sh_loop_landed inv t Ht _ _ _ _ _ m Hloop Hnames Hm HT).
    + apply (sh_loop_effect inv t Ht) in Hloop
        as (-> & done & b & rest & Hn & Hout & Herr & Hdisk).
      intros [= <- <-]. split; [reflexivity|]. split; [exact Herr|].
      right. exists done, b, rest. split; [exact Hn|]. split.
      * rewrite Hout. cbn [out add_out]. now rewrite <- !app_assoc.
      * exact Hdisk.
Qed.

(** A run of the remote variant that ends with a status that is not 0:
    something was written on standard error; either the file system is as
    it was and the run did not come to its banner, or the run made the
    destination root and, when it ended in the loop, the skills before
    the one that failed were installed. *)
Lemma remote_failure (inv : invocation) (d : node) (st : nat) (w : world) :
  main inv d = (st, w) -> st <> 0 ->
  err w <> [] /\
  ((disk w = d /\
    (out w = [] \/ out w = [""; "Cloning Next.js Claude skills..."])) \/
   exists t repo d1,
     TARGET inv = Some t /\ git_clone inv = Cloned repo /\
     Fs.mkdir_p (Path.locate (pwd inv) t) d = Some d1 /\ st = 1 /\
     let found := match lookup ["skills"] repo with
                  | Some (Dir es) => matched (follow inv) es
                  | _ => []
                  end in
     ((found = [] /\ disk w = d1 /\ out w = sh_banner inv t) \/
      exists done a rest,
        found = (done ++ a :: rest)%list /\
        out w
        = (sh_banner inv t
           ++ map (fun k => progress (Str.strip_newlines k)) done)%list /\
        (Forall (fun k => Path.is_name (Str.strip_newlines k) = true) found ->
         exists dk,
           puts (Path.locate (pwd inv) t) placed
             (map Str.strip_newlines done) d1 dk /\
           only_at (Path.locate (pwd inv) t ++ [Str.strip_newlines a])
             dk (disk w)))).
Proof.
  unfold main, Proc.run. rewrite sh_install_cases. simpl disk.
  destruct (TARGET inv) as [t|] eqn:Ht;
    [|intros [= <- <-] _; simpl; split; [discriminate|left; now auto]].
  destruct (mktemp inv);
    [|intros [= <- <-] _; simpl; split; [discriminate|left; now auto]].
  destruct (git_clone inv) as [repo|msg];
    [|intros [= <- <-] _; simpl; split; [discriminate|left; now auto]].
  destruct (Fs.mkdir_p _ d) as [d1|] eqn:Hm;
    [|intros [= <- <-] _; simpl; split; [discriminate|left; now auto]].
  assert (Hne : t <> "")
    by (apply (destination_nonempty (Installer.Remote inv)), Ht).
  unfold trap_EXIT.
  destruct (install_all _ _ _) as [r w'] eqn:Hall.
  apply (sh_install_all_effect _ _ _ _ _ Hne) in Hall.
  destruct r as [[]|st0]; [intros [= <- <-] Hst; now contradiction Hst|].
  intros [= <- <-] _.
  destruct Hall as (-> & [msg Herr] & Hall).
  cbn [tmp set_disk set_tmp add_out disk out err] in Herr, Hall.
  change (lookup ["repo"; "skills"] (Dir [("repo", repo)]))
    with (lookup ["skills"] repo) in Hall.
  cbn [disk tmp out err rm_rf_TMPDIR put_tmp set_tmp snd].
  split; [rewrite Herr; discriminate|].
  right. exists t, repo, d1.
  do 4 (split; [first [reflexivity|assumption]|]).
  destruct Hall as [(Hf & Hd & Hout)|(done & a & rest & Hf & Hout & Hdisk)].
  - left. rewrite Hf, Hd, Hout. auto.
  - right. exists done, a, rest. rewrite Hout.
    split; [exact Hf|]. split; [reflexivity|].
    intros Hnames.
    apply (Hdisk Hnames). now apply (mkdir_p_dir _ d).
Qed.


End ShRuns.

Section TreeFacts.
Import Fs.
Context {lc : Bash.Locale}.

Lemma wf_lookup (p : list string) (d n : node) :
  wf d = true -> lookup p d = Some n -> wf n = true.
Proof.
  revert d. induction p as [|c r IH]; intros d Hwf H.
  - simpl in H. now injection H as <-.
  - destruct d as [| |es]; try discriminate. simpl in H.
    destruct (find c es) as [m|] eqn:Hf; [|discriminate].
    apply wf_Dir in Hwf as (_ & _ & Hall). rewrite Forall_forall in Hall.
    exact (IH m (Hall _ (find_In _ _ _ Hf)) H).
Qed.



Lemma distinct_NoDup (l : list string) : distinct l = true -> NoDup l.
Proof.
  induction l as [|s l IH]; intros H; [constructor|].
  simpl in H. apply andb_true_iff in H as [Hs Hl].
  constructor; [|now apply IH].
  intros Hin. apply negb_true_iff in Hs.
  assert (E : existsb (fun t => t =? s) l = true).
  { apply existsb_exists. exists s. split; [exact Hin|apply String.eqb_refl]. }
  congruence.
Qed.

Lemma NoDup_app_apart (l l' : list string) (k : string) :
  NoDup (l ++ l') -> In k l -> ~ In k l'.
Proof.
  induction l as [|a l IH]; simpl; [intros _ []|].
  intros H [->|Hk] Hk'; inversion H as [|? ? Ha Hl]; subst.
  - apply Ha, in_or_app. now right.
  - exact (IH Hl Hk Hk').
Qed.

Lemma NoDup_names_filter (f : string * node -> bool) (es : entries_t) :
  NoDup (names es) -> NoDup (names (filter f es)).
Proof.
  unfold names. induction es as [|[k m] es IH]; intros H; [constructor|].
  inversion H as [|? ? Hk Hes]; subst. simpl.
  destruct (f (k, m)); [|now apply IH].
  simpl. constructor; [|now apply IH].
  intros Hin. apply Hk. apply in_map_iff in Hin as ([k' m'] & E & Hin).
  simpl in E. subst k'. apply filter_In in Hin as [Hin _].
  apply in_map_iff. now exists (k, m').
Qed.

Lemma NoDup_dir_names (es : entries_t) :
  wf (Dir es) = true -> NoDup (dir_names es).
Proof.
  intros H. apply wf_Dir in H as (Hd & _ & _).
  apply NoDup_names_filter. now apply distinct_NoDup.
Qed.


Lemma put_fresh (k : string) (n : node) (es : entries_t) :
  find k es = None -> put k n es = (es ++ [(k, n)])%list.
Proof.
  induction es as [|[k' m] es IH]; simpl; [reflexivity|].
  destruct (k' =? k); [discriminate|]. intros H. now rewrite IH.
Qed.

Lemma find_snoc_other (k k' : string) (n : node) (es : entries_t) :
  k <> k' -> find k' (es ++ [(k, n)])%list = find k' es.
Proof.
  intros Hne. induction es as [|[k0 m] es IH]; simpl.
  - destruct (String.eqb_spec k k'); [contradiction|reflexivity].
  - destruct (k0 =? k'); [reflexivity|exact IH].
Qed.

Section Once.
Variable T : list string.
Variable R : string -> node -> entries_t -> node -> Prop.

(** In a run of writes that takes every name once, the entry of a name at
    the end is what its one write set it to, from what the entry was at
    the start; what is apart from the directory was then as at the
    start. *)
Lemma puts_once (a : string) (l : list string) (d d' : node) :
  puts T R l d d' -> NoDup l -> In a l ->
  exists d0 ts x,
    R a d0 ts x /\
    find a ts = lookup (T ++ [a]) d /\
    (forall q, apart T q -> lookup q d0 = lookup q d) /\
    lookup (T ++ [a]) d' = Some x.
Proof.
  induction 1 as [d|b rest d d1 d' ts x HT HR Hw Hp IH]; [intros _ []|].
  intros Hnd Hin. inversion Hnd as [|? ? Hb Hrest]; subst.
  destruct (String.eqb_spec b a) as [->|Hne].
  - exists d, ts, x. split; [exact HR|]. split.
    + now rewrite (lookup_child _ _ _ _ HT).
    + split; [reflexivity|].
      rewrite (puts_other _ _ _ _ _ Hp a [] Hb).
      rewrite (lookup_write _ _ _ _ _ Hw). simpl.
      now rewrite find_put_same.
  - destruct Hin as [E|Hin]; [contradiction|].
    destruct (IH Hrest Hin) as (d0 & ts0 & x0 & HR0 & Hf & Hap & Hl).
    exists d0, ts0, x0. split; [exact HR0|]. split.
    + rewrite Hf, (lookup_write _ _ _ _ _ Hw). simpl.
      rewrite find_put_other by assumption.
      rewrite (lookup_child _ _ _ _ HT). now destruct (find a ts).
    + split; [|exact Hl].
      intros q Hq. rewrite (Hap q Hq).
      eapply lookup_write_apart; eassumption.
Qed.

End Once.

(** Copies onto nothing: the copy is the source. *)
Lemma copyDir_fresh (ses : entries_t) :
  Forall (fun e => NodeJs.copy (snd e) None = (Some (snd e), None)) ses ->
  distinct (map fst ses) = true ->
  forall pre,
    (forall k, In k (map fst ses) -> find k pre = None) ->
    NodeJs.copyDir NodeJs.copy ses pre = ((pre ++ ses)%list, None).
Proof.
  induction ses as [|[k s] ses IH]; intros Hall Hd pre Hpre.
  - simpl. now rewrite app_nil_r.
  - inversion Hall as [|? ? Hs Hall']; subst. simpl in Hs.
    pose proof (distinct_NoDup _ Hd) as Hnd.
    inversion Hnd as [|? ? Hk _]; subst.
    simpl in Hd. apply andb_true_iff in Hd as [_ Hd].
    simpl. rewrite (Hpre k (or_introl eq_refl)), Hs.
    rewrite put_fresh by (apply Hpre; now left).
    rewrite (IH Hall' Hd).
    + now rewrite <- app_assoc.
    + intros k' Hk'. rewrite find_snoc_other by (intros ->; contradiction).
      apply Hpre. now right.
Qed.

Lemma copy_fresh (src : node) :
  wf src = true -> NodeJs.copy src None = (Some src, None).
Proof.
  induction src as [c|t|ses IH] using node_induction; intros Hwf;
    [reflexivity|reflexivity|].
  apply wf_Dir in Hwf as (Hd & _ & Hwfs). simpl.
  rewrite (copyDir_fresh ses); [reflexivity| |exact Hd|reflexivity].
  rewrite Forall_forall in *. intros e He. now apply IH, Hwfs.
Qed.



End TreeFacts.

(** ** Failures and what a run leaves alone *)

Section Beyond.
Import Proc Fs Installer Effects.
Context {rt : NodeJs.Runtime} {lc : Bash.Locale}.

(** X1.  Both variants: a run ends with status 0 exactly when it wrote
    nothing on standard error. *)
Theorem errors_are_reported (v : variant) (d : node) :
  fst (run v d) = 0 <-> err (snd (run v d)) = [].
Proof.
  destruct v as [inv|inv]; cbn [run].
  - destruct (NodeJs.main inv d) as [st w] eqn:Hrun. cbn [fst snd]. split.
    + intros ->. now apply local_success in Hrun
        as (t & es & d1 & _ & _ & _ & _ & Herr & _).
    + intros Herr. destruct (Nat.eq_dec st 0) as [E|Hst]; [exact E|].
      destruct (local_failure _ _ _ _ Hrun Hst) as ([msg Hmsg] & _).
      rewrite Herr in Hmsg. discriminate Hmsg.
  - destruct (Bash.main inv d) as [st w] eqn:Hrun. cbn [fst snd]. split.
    + intros ->. now apply remote_success in Hrun
        as (t & repo & es & d1 & _ & _ & _ & _ & _ & _ & Herr & _).
    + intros Herr. destruct (Nat.eq_dec st 0) as [E|Hst]; [exact E|].
      destruct (remote_failure _ _ _ _ Hrun Hst) as (Hne & _).
      contradiction.
Qed.

(** X2.  Local variant: a run, however it ends, changes nothing that is
    apart from the destination root: what is at a location that is
    neither the root, nor inside it, nor on the way to it, is after the
    run what it was before.  (For a well-formed file system, and a
    destination root that no link leads to: the kernel would follow such
    a link, and the model does not.) *)
Theorem local_confined (inv : NodeJs.invocation) (d : node) (st : nat)
  (w : world) (t : string) :
  wf d = true ->
  direct (Path.locate (NodeJs.cwd inv) t) d = true ->
  NodeJs.main inv d = (st, w) ->
  NodeJs.targetBase inv = Some t ->
  forall q, apart (Path.locate (NodeJs.cwd inv) t) q ->
            lookup q (disk w) = lookup q d.
Proof.
  intros Hwf _ Hrun Ht q Hq.
  assert (Hnames : forall es,
             lookup (Path.locate (NodeJs.cwd inv) (NodeJs.skillsSource inv)) d
             = Some (Dir es) ->
             Forall (fun a => Path.is_name a = true) (dir_names es)).
  { intros es Hes. apply dir_names_is_name. exact (wf_lookup _ _ _ Hwf Hes). }
  destruct (Nat.eq_dec st 0) as [->|Hst].
  - apply local_success in Hrun
      as (t' & es & d1 & Ht' & Hes & _ & Hm & _ & _ & Hputs).
    rewrite Ht in Ht'. injection Ht' as <-.
    rewrite (puts_apart _ _ _ _ _ (Hputs (Hnames _ Hes)) _ Hq).
    exact (mkdir_p_apart _ _ _ _ Hq Hm).
  - destruct (local_failure _ _ _ _ Hrun Hst)
      as (_ & [[-> _]|(t' & es & d1 & done & a & rest & Ht' & Hes & Hm
                       & Hsk & _ & Hdisk)]); [reflexivity|].
    rewrite Ht in Ht'. injection Ht' as <-.
    destruct (Hdisk (Hnames _ Hes)) as (dk & Hputs & Honly).
    rewrite (only_at_below _ _ _ _ Honly q Hq).
    rewrite (puts_apart _ _ _ _ _ Hputs _ Hq).
    exact (mkdir_p_apart _ _ _ _ Hq Hm).
Qed.


(** ** What a run leaves behind *)

(** X4.  Local variant: after a run that ends with status 0, a skill that
    was not at the destination before is there as its source directory
    is: the same entries with the same contents, and nothing else.  (For
    a skill without links, whose targets [fs.cpSync] may rewrite.) *)
Theorem local_fresh_copy (inv : NodeJs.invocation) (d : node) (w : world)
  (t : string) (es : entries_t) (a : string) (ses : entries_t) :
  NodeJs.main inv d = (0, w) ->
  NodeJs.targetBase inv = Some t ->
  lookup (Path.locate (NodeJs.cwd inv) (NodeJs.skillsSource inv)) d
  = Some (Dir es) ->
  tidy (Local inv) t es ->
  find a es = Some (Dir ses) ->
  link_free (Dir ses) = true ->
  lookup (Path.locate (NodeJs.cwd inv) t ++ [a]) d = None ->
  lookup (Path.locate (NodeJs.cwd inv) t ++ [a]) (disk w) = Some (Dir ses).
Proof.
  intros Hrun Ht Hes [Hwf Hap] Ha _ Hnone.
  apply local_success in Hrun
    as (t' & es' & d1 & Ht' & Hes' & _ & Hm & _ & _ & Hputs).
  rewrite Ht in Ht'. injection Ht' as <-.
  rewrite Hes in Hes'. injection Hes' as <-.
  specialize (Hputs (dir_names_is_name _ Hwf)).
  set (S := Path.locate (NodeJs.cwd inv) (NodeJs.skillsSource inv)) in *.
  set (T := Path.locate (NodeJs.cwd inv) t) in *.
  assert (Hin : In a (dir_names es))
    by (apply dir_names_In; exists ses; now apply find_In).
  destruct (puts_once _ _ a _ _ _ Hputs (NoDup_dir_names _ Hwf) Hin)
    as (d0 & ts & x & (s & Hs & Hc) & Hf & Hd0 & Hx).
  rewrite Hx. f_equal.
  rewrite (Hd0 _ (apart_child _ _ a Hap)) in Hs.
  rewrite (mkdir_p_apart _ _ _ _ (apart_child _ _ a Hap) Hm) in Hs.
  rewrite (lookup_child _ _ _ _ Hes), Ha in Hs. injection Hs as <-.
  rewrite Hf, (mkdir_p_inside _ [a] _ _ Hm), Hnone in Hc by discriminate.
  assert (Hwfs : wf (Dir ses) = true).
  { apply wf_Dir in Hwf as (_ & _ & Hwf). rewrite Forall_forall in Hwf.
    exact (Hwf _ (find_In _ _ _ Ha)). }
  rewrite (copy_fresh _ Hwfs) in Hc. now injection Hc as <-.
Qed.




(** X7.  Local variant: a run that ends after its banner with a status
    that is not 0 ended in the loop over the skills, and nothing is
    undone: the skills before the one at which it stopped have their
    progress lines and are installed, every file of their source at the
    destination with its content; the skills after it are as they were.
    (Whatever the status: 1 where Node raises the error of the copy, 134
    where it aborts.) *)
Theorem local_failure_keeps_earlier (inv : NodeJs.invocation) (d : node)
  (st : nat) (w : world) (t : string) (es : entries_t) :
  NodeJs.main inv d = (st, w) ->
  st <> 0 ->
  out w <> [] ->
  NodeJs.targetBase inv = Some t ->
  lookup (Path.locate (NodeJs.cwd inv) (NodeJs.skillsSource inv)) d
  = Some (Dir es) ->
  tidy (Local inv) t es ->
  exists done a rest,
    dir_names es = (done ++ a :: rest)%list /\
    out w = (banner inv t ++ map NodeJs.progress done)%list /\
    (forall k ses p c,
       In k done -> find k es = Some (Dir ses) ->
       lookup p (Dir ses) = Some (File c) ->
       lookup (Path.locate (NodeJs.cwd inv) t ++ k :: p) (disk w)
       = Some (File c)) /\
    (forall k q,
       In k rest ->
       lookup (Path.locate (NodeJs.cwd inv) t ++ k :: q) (disk w)
       = lookup (Path.locate (NodeJs.cwd inv) t ++ k :: q) d).
Proof.
  intros Hrun Hst Hout Ht Hes [Hwf Hap].
  destruct (local_failure _ _ _ _ Hrun Hst)
    as (_ & [[_ Hnil]|(t' & es' & d1 & done & a & rest & Ht' & Hes' & Hm
                       & Hsk & Hout' & Hdisk)]); [contradiction|].
  rewrite Ht in Ht'. injection Ht' as <-.
  rewrite Hes in Hes'. injection Hes' as <-.
  destruct (Hdisk (dir_names_is_name _ Hwf)) as (dk & Hputs & Honly).
  pose proof (NoDup_dir_names _ Hwf) as Hnd. rewrite Hsk in Hnd.
  set (S := Path.locate (NodeJs.cwd inv) (NodeJs.skillsSource inv)) in *.
  set (T := Path.locate (NodeJs.cwd inv) t) in *.
  exists done, a, rest. split; [exact Hsk|]. split; [exact Hout'|]. split.
  - intros k ses p c Hk Hf Hp.
    assert (Hka : a <> k).
    { intros <-. apply (NoDup_remove_2 _ _ _ Hnd), in_or_app. now left. }
    rewrite (Honly _ (apart_siblings T p a k Hka)).
    destruct (puts_once _ _ k _ _ _ Hputs
                (NoDup_app_remove_r _ _ Hnd) Hk)
      as (d0 & ts & x & (s & Hs & Hc) & _ & Hd0 & Hx).
    rewrite (Hd0 _ (apart_child _ _ k Hap)) in Hs.
    rewrite (mkdir_p_apart _ _ _ _ (apart_child _ _ k Hap) Hm) in Hs.
    rewrite (lookup_child _ _ _ _ Hes), Hf in Hs. injection Hs as <-.
    assert (Hwfs : wf (Dir ses) = true).
    { apply wf_Dir in Hwf as (_ & _ & Hwf). rewrite Forall_forall in Hwf.
      exact (Hwf _ (find_In _ _ _ Hf)). }
    change (k :: p) with ([k] ++ p)%list.
    rewrite app_assoc, lookup_app, Hx.
    exact (copy_files _ Hwfs _ _ Hc _ _ Hp).
  - intros k q Hk.
    assert (Hka : a <> k).
    { intros <-. apply NoDup_remove_2 in Hnd. apply Hnd, in_or_app.
      now right. }
    assert (Hkd : ~ In k done).
    { intros Hin. apply NoDup_remove_1 in Hnd.
      exact (NoDup_app_apart _ _ _ Hnd Hin Hk). }
    rewrite (Honly _ (apart_siblings T q a k Hka)).
    rewrite (puts_other _ _ _ _ _ Hputs k q Hkd).
    now rewrite (mkdir_p_inside _ (k :: q) _ _ Hm) by discriminate.
Qed.


(** ** What a run does not look at, and what stops it *)

(** X9.  Local variant: of its arguments the script looks at nothing but
    whether [--global] is among them.  Two invocations that agree on
    that, on the environment, on the working directory and on where the
    script is, end with the same status and leave the same file system
    and the same output, whatever else they were given. *)
Theorem local_arguments_ignored (inv inv' : NodeJs.invocation) (d : node) :
  (In "--global" (NodeJs.args inv) <-> In "--global" (NodeJs.args inv')) ->
  NodeJs.env inv = NodeJs.env inv' ->
  NodeJs.cwd inv = NodeJs.cwd inv' ->
  NodeJs.__dirname inv = NodeJs.__dirname inv' ->
  NodeJs.main inv d = NodeJs.main inv' d.
Proof.
  intros Hflag Henv Hcwd Hdir.
  assert (Hg : NodeJs.isGlobal inv = NodeJs.isGlobal inv').
  { unfold NodeJs.isGlobal.
    destruct (NodeJs.includes (NodeJs.args inv') "--global") eqn:E.
    - now apply includes_In, Hflag, includes_In.
    - destruct (NodeJs.includes (NodeJs.args inv) "--global") eqn:E';
        [|reflexivity].
      apply includes_In, Hflag, includes_In in E'. congruence. }
  unfold NodeJs.main, NodeJs.install, NodeJs.install_all,
    NodeJs.install_skill, NodeJs.targetBase, NodeJs.skillsSource, NodeJs.home.
  now rewrite Hg, Henv, Hcwd, Hdir.
Qed.

(** X10.  Remote variant: the same of [install.sh].  Two invocations that
    agree on whether [--global] is among the arguments, and on everything
    but the arguments, end with the same status and leave the same file
    system and the same output. *)
Theorem remote_arguments_ignored (inv inv' : Bash.invocation) (d : node) :
  (In "--global" (Bash.args inv) <-> In "--global" (Bash.args inv')) ->
  Bash.env inv = Bash.env inv' ->
  Bash.pwd inv = Bash.pwd inv' ->
  Bash.mktemp inv = Bash.mktemp inv' ->
  Bash.git_clone inv = Bash.git_clone inv' ->
  Bash.follow inv = Bash.follow inv' ->
  Bash.main inv d = Bash.main inv' d.
Proof.
  intros Hflag Henv Hpwd Hmk Hgit Hfl.
  assert (Hg : Bash.GLOBAL inv = Bash.GLOBAL inv').
  { destruct (Bash.GLOBAL inv') eqn:E.
    - now apply GLOBAL_In, Hflag, GLOBAL_In.
    - destruct (Bash.GLOBAL inv) eqn:E'; [|reflexivity].
      apply GLOBAL_In, Hflag, GLOBAL_In in E'. congruence. }
  unfold Bash.main, Bash.install, Bash.TARGET, Bash.HOME, Bash.TMPDIR,
    Bash.script, Bash.clone, Bash.install_all, Bash.install_skill.
  now rewrite Hg, Henv, Hpwd, Hmk, Hgit, Hfl.
Qed.


End Beyond.

(** ** Instances *)

Section MoreInstances.
Import Proc Fs Installer Effects Examples MoreExamples.

Lemma local_confined_witness :
  apart (Path.locate (NodeJs.cwd npx) project_skills)
    ["pkg"; "skills"; "beta"; "SKILL.md"] /\
  lookup ["pkg"; "skills"; "beta"; "SKILL.md"]
    (disk (snd (NodeJs.main npx beta_in_the_way)))
  = lookup ["pkg"; "skills"; "beta"; "SKILL.md"] beta_in_the_way.
Proof.
  assert (H : apart (Path.locate (NodeJs.cwd npx) project_skills)
                ["pkg"; "skills"; "beta"; "SKILL.md"])
    by (split; vm_compute; reflexivity).
  split; [exact H|].
  apply (local_confined npx beta_in_the_way 1 _ project_skills).
  - vm_compute; reflexivity.
  - vm_compute; reflexivity.
  - vm_compute; reflexivity.
  - vm_compute; reflexivity.
  - exact H.
Defined.


Lemma local_fresh_copy_witness :
  lookup (Path.locate (NodeJs.cwd npx) project_skills ++ ["alpha"])
    (disk (snd (NodeJs.main npx fresh)))
  = Some (Dir [("SKILL.md", File "alpha, as shipped")]).
Proof.
  apply (local_fresh_copy npx fresh _ project_skills shipped).
  - vm_compute; reflexivity.
  - vm_compute; reflexivity.
  - vm_compute; reflexivity.
  - split; [vm_compute; reflexivity|split; vm_compute; reflexivity].
  - reflexivity.
  - reflexivity.
  - vm_compute; reflexivity.
Defined.



(** The statuses of a copy that fails: at the destination itself, and
    inside the directory that is copied, on a Node that raises and on
    one that aborts there. *)
Lemma copy_failure_example :
  fst (NodeJs.main npx beta_in_the_way) = 1 /\
  fst (NodeJs.main npx refs_in_the_way) = 1 /\
  fst (@NodeJs.main aborting npx beta_in_the_way) = 1 /\
  fst (@NodeJs.main aborting npx refs_in_the_way) = 134.
Proof. repeat split; vm_compute; reflexivity. Qed.

Lemma local_failure_keeps_earlier_witness :
  (exists done a rest,
     dir_names shipped = (done ++ a :: rest)%list /\
     out (snd (NodeJs.main npx beta_in_the_way))
     = (banner npx project_skills ++ map NodeJs.progress done)%list /\
     (forall k ses p c,
        In k done -> find k shipped = Some (Dir ses) ->
        lookup p (Dir ses) = Some (File c) ->
        lookup (Path.locate (NodeJs.cwd npx) project_skills ++ k :: p)
          (disk (snd (NodeJs.main npx beta_in_the_way)))
        = Some (File c)) /\
     (forall k q,
        In k rest ->
        lookup (Path.locate (NodeJs.cwd npx) project_skills ++ k :: q)
          (disk (snd (NodeJs.main npx beta_in_the_way)))
        = lookup (Path.locate (NodeJs.cwd npx) project_skills ++ k :: q)
            beta_in_the_way)) /\
  (exists done a rest,
     dir_names shipped_deep = (done ++ a :: rest)%list /\
     out (snd (@NodeJs.main aborting npx refs_in_the_way))
     = (banner npx project_skills ++ map NodeJs.progress done)%list /\
     (forall k ses p c,
        In k done -> find k shipped_deep = Some (Dir ses) ->
        lookup p (Dir ses) = Some (File c) ->
        lookup (Path.locate (NodeJs.cwd npx) project_skills ++ k :: p)
          (disk (snd (@NodeJs.main aborting npx refs_in_the_way)))
        = Some (File c)) /\
     (forall k q,
        In k rest ->
        lookup (Path.locate (NodeJs.cwd npx) project_skills ++ k :: q)
          (disk (snd (@NodeJs.main aborting npx refs_in_the_way)))
        = lookup (Path.locate (NodeJs.cwd npx) project_skills ++ k :: q)
            refs_in_the_way)).
Proof.
  split.
  - apply (local_failure_keeps_earlier npx beta_in_the_way 1).
    + vm_compute; reflexivity.
    + discriminate.
    + vm_compute; discriminate.
    + vm_compute; reflexivity.
    + vm_compute; reflexivity.
    + split; [vm_compute; reflexivity|split; vm_compute; reflexivity].
  - apply (@local_failure_keeps_earlier aborting npx refs_in_the_way 134).
    + vm_compute; reflexivity.
    + discriminate.
    + vm_compute; discriminate.
    + vm_compute; reflexivity.
    + vm_compute; reflexivity.
    + split; [vm_compute; reflexivity|split; vm_compute; reflexivity].
Defined.

Lemma local_reinstall_same_witness :
  exists w',
    NodeJs.main npx (disk (snd (NodeJs.main npx fresh_plain))) = (0, w') /\
    disk w' = disk (snd (NodeJs.main npx fresh_plain)).
Proof.
  apply (local_reinstall_same npx fresh_plain _ project_skills shipped_plain).
  - vm_compute; reflexivity.
  - vm_compute; reflexivity.
  - vm_compute; reflexivity.
  - split; [vm_compute; reflexivity|split; vm_compute; reflexivity].
  - reflexivity.
Defined.

Lemma local_arguments_ignored_witness :
  NodeJs.main npx used = NodeJs.main npx_verbose used.
Proof.
  apply (local_arguments_ignored npx npx_verbose used).
  - vm_compute; intuition discriminate.
  - reflexivity.
  - reflexivity.
  - reflexivity.
Defined.

Lemma remote_arguments_ignored_witness :
  Bash.main (curl snapshot) fresh = Bash.main (curl_verbose snapshot) fresh.
Proof.
  apply (remote_arguments_ignored (curl snapshot) (curl_verbose snapshot) fresh).
  - vm_compute; intuition discriminate.
  - reflexivity.
  - reflexivity.
  - reflexivity.
  - reflexivity.
  - reflexivity.
Defined.


(** The order of the loop in the C locale: the words are compared with
    their final slash. *)
Lemma glob_order_example :
  Bash.matched dangling
    [("b", Dir []); ("a.b", Dir []); ("a", Dir []); ("B", Dir []);
     ("a-b", Dir []); ("a b", Dir []); (".a", Dir []); ("c", File "")]
  = ["B"; "a b"; "a-b"; "a.b"; "a"; "b"] /\
  out (snd (Bash.main (curl snapshot_dashed) a_in_the_way))
  = (sh_banner (curl snapshot_dashed) project_skills ++ ["  + a-b"])%list.
Proof. split; vm_compute; reflexivity. Qed.


End MoreInstances.
